(** * dadi/SFS.py : site frequency spectra, their quadrature and statistics

    A shallow embedding of [src/dadi/SFS.py] and the properties of it that
    the specification states.

    Conventions of the embedding.

    - The module is Python 2 source: it concatenates [range(1,r+1)+[0]]
      as lists, imports its sibling [Numerics] by an implicit relative
      import and has no [from __future__ import division].  Hence [/]
      between two integers is floor division, which is [Z.div] here.
    - Floating point is read in exact arithmetic: a finite float is a
      canonical rational [Qc]; the IEEE special values are kept
      ([Inf], [NaN]); rounding and the sign of zero are not modelled.
    - Python exceptions are values of [exn]; a function that can raise
      returns a [result].
    - numpy arrays are flat buffers ([list]) with a shape, in C order;
      a masked array carries a boolean mask of the same size.  Arrays
      combined elementwise are taken to be conformable, which the
      theorems state as hypotheses on lengths. *)

From Stdlib Require Import ZArith QArith Qcanon Lia.
From stdpp Require Import base numbers list strings gmap sorting.

(** ** Exceptions and results *)

Inductive exn : Type :=
  | ValueError (msg : string)
  | ZeroDivisionError
  | IndexError
  | NameError (name : string).

Inductive result (A : Type) : Type :=
  | Ret (a : A)
  | Raise (e : exn).
Arguments Ret {A} a.
Arguments Raise {A} e.

#[global] Instance result_ret : MRet result := @Ret.
#[global] Instance result_bind : MBind result := λ A B f m,
  match m with
  | Ret a => f a
  | Raise e => Raise e
  end.

(** [for x in xs: st = body st x], stopping at the first exception. *)
Fixpoint for_each {A St : Type} (body : St → A → result St)
    (xs : list A) (st : St) : result St :=
  match xs with
  | [] => Ret st
  | x :: xs' => st' ← body st x; for_each body xs' st'
  end.

(** ** Floats in exact arithmetic *)

Inductive float : Type :=
  | Fin (q : Qc)
  | Inf (neg : bool)
  | NaN.

Definition of_Z (z : Z) : float := Fin (Qc_of_Z z).
Definition Qc_of_nat (n : nat) : Qc := Qc_of_Z (Z.of_nat n).

Definition is_neg (q : Qc) : bool := bool_decide (q < 0)%Qc.
Definition is_zero (q : Qc) : bool := bool_decide (q = 0%Qc).

Definition fopp (x : float) : float :=
  match x with
  | Fin a => Fin (- a)
  | Inf s => Inf (negb s)
  | NaN => NaN
  end.

Definition fadd (x y : float) : float :=
  match x, y with
  | Fin a, Fin b => Fin (a + b)
  | Fin _, Inf s | Inf s, Fin _ => Inf s
  | Inf s, Inf t => if bool_decide (s = t) then Inf s else NaN
  | NaN, _ | _, NaN => NaN
  end.

Definition fsub (x y : float) : float := fadd x (fopp y).

Definition fmul (x y : float) : float :=
  match x, y with
  | Fin a, Fin b => Fin (a * b)
  | Fin a, Inf s | Inf s, Fin a =>
      if is_zero a then NaN else Inf (xorb s (is_neg a))
  | Inf s, Inf t => Inf (xorb s t)
  | NaN, _ | _, NaN => NaN
  end.

(** numpy's float division: a zero divisor yields an infinity or a nan
    (and a warning), never an exception. *)
Definition fdiv (x y : float) : float :=
  match x, y with
  | Fin a, Fin b =>
      if is_zero b then (if is_zero a then NaN else Inf (is_neg a))
      else Fin (a / b)
  | Fin _, Inf _ => Fin 0
  | Inf s, Fin b => Inf (xorb s (is_neg b))
  | Inf _, Inf _ => NaN
  | NaN, _ | _, NaN => NaN
  end.

(** Python's own float division raises on a zero divisor. *)
Definition py_fdiv (x y : float) : result float :=
  match y with
  | Fin b => if is_zero b then Raise ZeroDivisionError else Ret (fdiv x y)
  | _ => Ret (fdiv x y)
  end.

(** Python 2 [a / b] on two ints: floor division, raising on zero. *)
Definition py_idiv (a b : Z) : result Z :=
  if bool_decide (b = 0%Z) then Raise ZeroDivisionError else Ret (a / b)%Z.

(** numpy's integer division: floor division, and 0 (with a warning) for a
    zero divisor, which is what [Z.div] gives. *)
Definition np_idiv (a b : Z) : Z := (a / b)%Z.

(** [x > 0] on floats. *)
Definition fpos (x : float) : bool :=
  match x with
  | Fin a => bool_decide (0 < a)%Qc
  | Inf s => negb s
  | NaN => false
  end.

(** [numpy.sum] of a float vector and of a rational one. *)
Definition fsum (l : list float) : float := foldl fadd (Fin 0) l.
Definition qsum (l : list Qc) : Qc := foldr Qcplus 0%Qc l.

(** ** numpy vectors *)

Definition vadd (a b : list Qc) : list Qc := zip_with Qcplus a b.
Definition vsub (a b : list Qc) : list Qc := zip_with Qcminus a b.
Definition vmul (a b : list Qc) : list Qc := zip_with Qcmult a b.

(** The slices [y[1:]] and [y[:-1]]. *)
Definition from1 {A} (y : list A) : list A := drop 1 y.
Definition upto_last {A} (y : list A) : list A := take (length y - 1) y.

(** [numpy.diff(xx)] is [xx[1:] - xx[:-1]]. *)
Definition diff (xx : list Qc) : list Qc := vsub (from1 xx) (upto_last xx).

(** numpy's [trapz(y, dx=d)] on the last axis:
    [add.reduce(d * (y[1:] + y[:-1]) / 2.0)]. *)
Definition trapz_dx (y d : list Qc) : Qc :=
  qsum ((λ v, v / 2)%Qc <$> vmul d (vadd (from1 y) (upto_last y))).

(** [trapz(y, x)] takes [d = diff(x)]. *)
Definition trapz (y x : list Qc) : Qc := trapz_dx y (diff x).

(** ** Binomial coefficients and the binomial factor *)

(** [scipy.comb(n, k)] in exact arithmetic: the binomial coefficient. *)
Fixpoint comb (n k : nat) : nat :=
  match n, k with
  | _, 0 => 1
  | 0, S _ => 0
  | S n', S k' => comb n' k' + comb n' k
  end.

(** One entry of [comb(n,ii) * xx**ii * (1-xx)**(n-ii)]. *)
Definition binom_term (n ii : nat) (x : Qc) : Qc :=
  (Qc_of_nat (comb n ii) * x ^ ii * (1 - x) ^ (n - ii))%Qc.

(** The summand of the binomial theorem, [C(n,i) p^i q^(n-i)]. *)
Definition binom_summand (p q : Qc) (n i : nat) : Qc :=
  (Qc_of_nat (comb n i) * p ^ i * q ^ (n - i))%Qc.

Definition binom_factor (n ii : nat) (xx : list Qc) : list Qc :=
  binom_term n ii <$> xx.

(** ** sfs_from_phi_1D *)

Definition sfs_from_phi_1D (n : nat) (xx phi : list Qc) : list Qc :=
  let sfs := replicate (n + 1) 0%Qc in
  foldl (λ sfs ii,
           let factorx := binom_factor n ii xx in
           <[ii := trapz (vmul factorx phi) xx]> sfs)
        sfs (seq 0 (n + 1)).

(** ** sfs_from_phi_3D *)

(** The per-call caches [factorx_cache], [factory_cache]: dictionaries keyed
    by [(n, ii)]. *)
Definition factor_cache (n : nat) (xx : list Qc) : gmap (nat * nat) (list Qc) :=
  foldl (λ cache ii, <[(n, ii) := binom_factor n ii xx]> cache)
        ∅ (seq 0 (n + 1)).

(** [sfs[ii,jj,kk] = ans] on a rank-3 array held as nested rows. *)
Definition set3 (sfs : list (list (list Qc))) (ii jj kk : nat) (ans : Qc)
    : list (list (list Qc)) :=
  alter (alter (<[kk := ans]>) jj) ii sfs.

(** [phi] is indexed [phi[x][y][z]]; [trapz(..., dx=d)] integrates the last
    axis, so [over_z] is indexed [x][y] and [over_y] by [x]. *)
Definition sfs_from_phi_3D (nx ny nz : nat) (xx yy zz : list Qc)
    (phi : list (list (list Qc))) : list (list (list Qc)) :=
  let sfs := replicate (nx + 1) (replicate (ny + 1) (replicate (nz + 1) 0%Qc)) in
  let dx := diff xx in
  let dy := diff yy in
  let dz := diff zz in
  let half_dx := (λ v, v / 2)%Qc <$> dx in
  let factorx_cache := factor_cache nx xx in
  let factory_cache := factor_cache ny yy in
  foldl (λ sfs kk,
    let factorz := binom_factor nz kk zz in
    let over_z := fmap (fmap (λ line, trapz_dx (vmul factorz line) dz)) phi in
    foldl (λ sfs jj,
      let factory := factory_cache !!! (ny, jj) in
      let over_y := (λ line, trapz_dx (vmul factory line) dy) <$> over_z in
      foldl (λ sfs ii,
        let factorx := factorx_cache !!! (nx, ii) in
        let integrand := vmul factorx over_y in
        let ans :=
          qsum (vmul half_dx (vadd (from1 integrand) (upto_last integrand))) in
        set3 sfs ii jj kk ans)
      sfs (seq 0 (nx + 1)))
    sfs (seq 0 (ny + 1)))
  sfs (seq 0 (nz + 1)).

(** The variant the specification compares with: the same sweep, with the
    innermost integral taken by the general primitive [trapz(integrand,
    dx=dx)]. *)
Definition sfs_from_phi_3D_general (nx ny nz : nat) (xx yy zz : list Qc)
    (phi : list (list (list Qc))) : list (list (list Qc)) :=
  let sfs := replicate (nx + 1) (replicate (ny + 1) (replicate (nz + 1) 0%Qc)) in
  let dx := diff xx in
  let dy := diff yy in
  let dz := diff zz in
  let factorx_cache := factor_cache nx xx in
  let factory_cache := factor_cache ny yy in
  foldl (λ sfs kk,
    let factorz := binom_factor nz kk zz in
    let over_z := fmap (fmap (λ line, trapz_dx (vmul factorz line) dz)) phi in
    foldl (λ sfs jj,
      let factory := factory_cache !!! (ny, jj) in
      let over_y := (λ line, trapz_dx (vmul factory line) dy) <$> over_z in
      foldl (λ sfs ii,
        let factorx := factorx_cache !!! (nx, ii) in
        let integrand := vmul factorx over_y in
        let ans := trapz_dx integrand dx in
        set3 sfs ii jj kk ans)
      sfs (seq 0 (nx + 1)))
    sfs (seq 0 (ny + 1)))
  sfs (seq 0 (nz + 1)).

(** ** sfs_from_phi_2D *)

(** [sfs[ii,jj] = ans] on a rank-2 array held as rows. *)
Definition set2 (sfs : list (list Qc)) (ii jj : nat) (ans : Qc)
    : list (list Qc) :=
  alter (<[jj := ans]>) ii sfs.

(** [phi] is indexed [phi[x][y]]; [trapz(..., dx=dy)] integrates the last
    axis, so [integrated_over_y] is indexed by [x]. *)
Definition sfs_from_phi_2D (nx ny : nat) (xx yy : list Qc)
    (phi : list (list Qc)) : list (list Qc) :=
  let sfs := replicate (nx + 1) (replicate (ny + 1) 0%Qc) in
  let factorx_cache := factor_cache nx xx in
  let dx := diff xx in
  let dy := diff yy in
  foldl (λ sfs jj,
    let factory := binom_factor ny jj yy in
    let integrated_over_y :=
      (λ line, trapz_dx (vmul factory line) dy) <$> phi in
    foldl (λ sfs ii,
      let factorx := factorx_cache !!! (nx, ii) in
      set2 sfs ii jj (trapz_dx (vmul factorx integrated_over_y) dx))
    sfs (seq 0 (nx + 1)))
  sfs (seq 0 (ny + 1)).

(** ** Spectra: shape, flat data, mask *)

Record SFS : Type := mkSFS {
  shape : list nat;
  data : list Qc;
  mask : list bool
}.

Definition ndim (sfs : SFS) : nat := length (shape sfs).
Definition shape_size (sh : list nat) : nat := foldr Nat.mul 1 sh.

(** A plain [ndarray] has no entry masked. *)
Definition ndarray (sh : list nat) (d : list Qc) : SFS :=
  mkSFS sh d (replicate (length d) false).

(** A spectrum has [n_k + 1 >= 1] entries on each axis and buffers of the
    size of its shape. *)
Definition wf_sfs (sfs : SFS) : Prop :=
  Forall (λ s, 1 ≤ s) (shape sfs)
  ∧ length (data sfs) = shape_size (shape sfs)
  ∧ length (mask sfs) = shape_size (shape sfs).

(** The entries a masked reduction sees. *)
Fixpoint compressed {A} (l : list A) (m : list bool) : list A :=
  match l, m with
  | x :: l', b :: m' => if b then compressed l' m' else x :: compressed l' m'
  | _, _ => []
  end.

(** [a.sum()] of a masked array with at least one entry unmasked.  When
    every entry is masked, numpy returns the constant [masked] instead of a
    number; [ma_sum] is the empty sum there and is not to be read as the
    value of the code.  The properties that give a value of a reduction
    assume an unmasked entry among those the reduction sees. *)
Definition ma_sum (sfs : SFS) : Qc := qsum (compressed (data sfs) (mask sfs)).
Definition ma_fsum (l : list float) (m : list bool) : float :=
  fsum (compressed l m).

(** Python indexing of a sequence of length [len]: negative indices count
    from the end, anything else out of range raises. *)
Definition py_index (len : nat) (i : Z) : result nat :=
  if bool_decide (0 ≤ i < Z.of_nat len)%Z then Ret (Z.to_nat i)
  else if bool_decide (- Z.of_nat len ≤ i < 0)%Z
       then Ret (Z.to_nat (Z.of_nat len + i))
  else Raise IndexError.

Definition flat_set {A} (l : list A) (i : Z) (x : A) : result (list A) :=
  k ← py_index (length l) i; Ret (<[k := x]> l).

(** [numpy.ma.masked_array(sfs, mask=m)]: numpy keeps the mask [sfs] already
    has ([keep_mask=True]) and joins [m] to it. *)
Definition masked_array (sfs : SFS) (m : list bool) : SFS :=
  mkSFS (shape sfs) (data sfs) (zip_with orb m (mask sfs)).

(** ** mask_corners *)

Definition mask_corners (sfs : SFS) : result SFS :=
  let mask := replicate (shape_size (shape sfs)) false in
  mask ← flat_set mask 0 true;
  mask ← flat_set mask (-1) true;
  Ret (masked_array sfs mask).

(** ** Notation for float expressions *)

Declare Scope fl_scope.
Delimit Scope fl_scope with fl.
Bind Scope fl_scope with float.
Infix "+" := fadd : fl_scope.
Infix "-" := fsub : fl_scope.
Infix "*" := fmul : fl_scope.
Infix "/" := fdiv : fl_scope.
Notation "1" := (Fin 1%Qc) : fl_scope.
Notation "2" := (Fin 2%Qc) : fl_scope.
Notation "3" := (Fin (Qc_of_Z 3)) : fl_scope.
Notation "9" := (Fin (Qc_of_Z 9)) : fl_scope.

(** [numpy.arange(a, b)] on integers. *)
Definition arange (a b : Z) : list Z := seqZ a (b - a).

(** ** The single-population statistics *)

Definition dim_error : exn :=
  ValueError "Only defined on a one-dimensional SFS.".

(** [sfs.shape[0]], read after the rank check. *)
Definition shape0 (sfs : SFS) : Z := Z.of_nat (default 0 (shape sfs !! 0)).

Definition Watterson_theta (sfs : SFS) : result float :=
  if bool_decide (ndim sfs ≠ 1) then Raise dim_error else
  let n := (shape0 sfs - 1)%Z in
  masked ← mask_corners sfs;
  let S := Fin (ma_sum masked) in
  let denom := fsum ((λ i, 1 / of_Z i)%fl <$> arange 1 n) in
  Ret (S / denom)%fl.

Definition pi (sfs : SFS) : result float :=
  if bool_decide (ndim sfs ≠ 1) then Raise dim_error else
  let n := (shape0 sfs - 1)%Z in
  let p := (λ i, 1 * of_Z i / of_Z n)%fl <$> arange 0 (n + 1) in
  k ← py_idiv n (n - 1);
  let terms := zip_with (λ s p_i, Fin s * p_i * (1 - p_i))%fl (data sfs) p in
  Ret (of_Z (k * 2) * ma_fsum terms (mask sfs))%fl.

Section Tajima.
(** [numpy.sqrt] has no exact rational reading; it is left abstract. *)
Variable np_sqrt : float → float.

Definition Tajima_D (sfs : SFS) : result float :=
  if bool_decide (¬ ndim sfs = 1) then Raise dim_error else
  masked ← mask_corners sfs;
  let S := Fin (ma_sum masked) in
  let n := of_Z (shape0 sfs - 1) in
  pihat ← pi sfs;
  theta ← Watterson_theta sfs;
  let ar := arange 1 (shape0 sfs - 1) in
  let a1 := fsum ((λ i, 1 / of_Z i)%fl <$> ar) in
  let a2 := fsum ((λ i, 1 / (of_Z i * of_Z i))%fl <$> ar) in
  b1 ← py_fdiv (n + 1)%fl (3 * (n - 1))%fl;
  b2 ← py_fdiv (2 * (n * n + n + 3))%fl (9 * n * (n - 1))%fl;
  let c1 := (b1 - 1 / a1)%fl in
  let c2 := (b2 - (n + 2) / (a1 * n) + a2 / (a1 * a1))%fl in
  let C := np_sqrt (c1 / a1 * S + c2 / (a1 * a1 + a2) * S * (S - 1))%fl in
  Ret ((pihat - theta) / C)%fl.
End Tajima.

(** ** Fst *)

Definition sumZ (l : list Z) : Z := foldr Z.add 0%Z l.

(** [numpy.indices(shape)] with the index axis moved last: the multi-index
    of every entry, in C order. *)
Fixpoint indices (sh : list nat) : list (list Z) :=
  match sh with
  | [] => [[]]
  | s :: sh' => i ← seqZ 0 (Z.of_nat s); (i ::.) <$> indices sh'
  end.

Definition Fst (sfs : SFS) : result float :=
  let r := Z.of_nat (ndim sfs) in
  let ns := (λ s, Z.of_nat s - 1)%Z <$> shape sfs in
  let nbar := (of_Z (sumZ ns) / of_Z (Z.of_nat (length ns)))%fl in
  let nsum := sumZ ns in
  let nc := np_idiv (nsum - np_idiv (sumZ ((λ n, n ^ 2)%Z <$> ns)) nsum) (r - 1) in
  let counts_per_pop := indices (shape sfs) in
  let ptwiddle :=
    (λ idx, zip_with (λ c n, 1 * of_Z c / of_Z n)%fl idx ns) <$> counts_per_pop in
  let pbar :=
    (λ pt, fsum (zip_with (λ n p, of_Z n * p)%fl ns pt) / of_Z nsum)%fl
      <$> ptwiddle in
  let s2 :=
    zip_with (λ pt pb,
        fsum (zip_with (λ n p, of_Z n * ((p - pb) * (p - pb)))%fl ns pt)
        / (of_Z (r - 1) * nbar))%fl
      ptwiddle pbar in
  ratio ← py_idiv (r - 1) r;
  let a :=
    zip_with (λ s2 pbar,
        nbar / of_Z nc
        * (s2 - 1 / (2 * nbar - 1) * (pbar * (1 - pbar) - of_Z ratio * s2)))%fl
      s2 pbar in
  let d :=
    zip_with (λ s2 pbar,
        2 * nbar / (2 * nbar - 1) * (pbar * (1 - pbar) - of_Z ratio * s2))%fl
      s2 pbar in
  let asum := ma_fsum (zip_with (λ x a, Fin x * a)%fl (data sfs) a) (mask sfs) in
  let dsum := ma_fsum (zip_with (λ x d, Fin x * d)%fl (data sfs) d) (mask sfs) in
  Ret (asum / (asum + dsum))%fl.

(** ** randomly_resampled_2D *)

(** The names the module binds at top level: its imports and its [def]s. *)
Definition module_globals : list string :=
  [ "numpy"; "nuax"; "comb"; "gammaln"; "Numerics"; "reverse_array"; "trapz";
    "sfs_from_phi_1D"; "sfs_from_phi_2D"; "sfs_from_phi_3D";
    "optimally_scaled_sfs"; "optimal_sfs_scaling"; "Fst";
    "randomly_resampled_2D"; "mask_corners"; "Watterson_theta"; "pi";
    "Tajima_D" ]%string.

(** The builtins the module refers to. *)
Definition py_builtins : list string :=
  [ "range"; "enumerate"; "slice"; "None"; "ValueError" ]%string.

(** Reading a name that is not local to the function: the module's globals,
    then the builtins, else [NameError]. *)
Definition load_name (name : string) : result unit :=
  if bool_decide (name ∈ module_globals ++ py_builtins) then Ret tt
  else Raise (NameError name).

(** [numpy.zeros(n)] for an integer [n]. *)
Definition np_zeros {A} (zero : A) (n : Z) : result (list A) :=
  if bool_decide (n < 0)%Z
  then Raise (ValueError "negative dimensions are not allowed")
  else Ret (replicate (Z.to_nat n) zero).

(** The rows of a rank-2 buffer of shape [(s1, s2)]. *)
Definition rows {A} (s1 s2 : nat) (l : list A) : list (list A) :=
  reshape (replicate s1 s2) l.

Definition enumerate {A} (l : list A) : list (Z * A) :=
  zip (seqZ 0 (Z.of_nat (length l))) l.

Section Resampling.
(** What [lncomb] and [numpy.exp] would compute is left open: the function
    [lncomb] is looked up by name before it is applied. *)
Variable lncomb_impl : Z → Z → float.
Variable np_exp : float → float.

Definition lncomb (N k : Z) : result float :=
  load_name "lncomb";; Ret (lncomb_impl N k).

Definition randomly_resampled_2D (sfs : SFS) : result (list float) :=
  match shape sfs with
  | [s1; s2] =>
      let n1 := (Z.of_nat s1 - 1)%Z in
      let n2 := (Z.of_nat s2 - 1)%Z in
      let ntot := (n1 + n2)%Z in
      (* First generate a 1d sfs for the pooled population. *)
      sfs_combined ← np_zeros 0%Qc (ntot + 1);
      sfs_combined ←
        for_each (λ sfs_combined '(ii, (row, mrow)),
          for_each (λ sfs_combined '(jj, (num_snps, masked)),
            let derived_total := (ii + jj)%Z in
            if masked : bool then Ret sfs_combined
            else k ← py_index (length sfs_combined) derived_total;
                 Ret (alter (λ v, v + num_snps)%Qc k sfs_combined))
          (enumerate (zip row mrow)) sfs_combined)
        (enumerate (zip (rows s1 s2 (data sfs)) (rows s1 s2 (mask sfs))))
        sfs_combined;
      (* Now resample *)
      let sfs_resamp := replicate (s1 * s2) (Fin 0) in
      for_each (λ sfs_resamp derived1,
        for_each (λ sfs_resamp '(derived_total, num_snps),
          let derived2 := (derived_total - derived1)%Z in
          let ancestral_total := (ntot - derived_total)%Z in
          let ancestral1 := (n1 - derived1)%Z in
          l1 ← lncomb derived_total derived1;
          l2 ← lncomb ancestral_total ancestral1;
          l3 ← lncomb ntot n1;
          let prob := np_exp (l1 + l2 - l3)%fl in
          if fpos prob then
            k1 ← py_index s1 derived1;
            k2 ← py_index s2 derived2;
            Ret (alter (λ v, v + prob * Fin num_snps)%fl (k1 * s2 + k2)
                       sfs_resamp)
          else Ret sfs_resamp)
        (enumerate sfs_combined) sfs_resamp)
      (seqZ 0 (n1 + 1)) sfs_resamp
  | [] | [_] => Raise (ValueError "need more values to unpack")
  | _ => Raise (ValueError "too many values to unpack")
  end.
End Resampling.

(** ** Scaling *)

(** Modelled from the spec: [Numerics.intersect_masks] is not part of the
    module at hand.  It returns two views that share the logical OR of both
    inputs' masks, each keeping its own data. *)
Definition intersect_masks (m1 m2 : SFS) : SFS * SFS :=
  let joint := zip_with orb (mask m1) (mask m2) in
  (mkSFS (shape m1) (data m1) joint, mkSFS (shape m2) (data m2) joint).

Definition optimal_sfs_scaling (model data : SFS) : float :=
  let '(model, data) := intersect_masks model data in
  (Fin (ma_sum data) / Fin (ma_sum model))%fl.

(** A masked array of floats, as [optimally_scaled_sfs] returns it: the
    scaling factor is a float and may be an infinity or a nan. *)
Record FSFS : Type := mkFSFS {
  fshape : list nat;
  fdata : list float;
  fmask : list bool
}.

(** [optimal_sfs_scaling(model,data) * model]: a scalar times the masked
    array [model], which keeps the shape and the mask of [model].  The second
    argument, [data] in the source, is [obs] here.  What numpy stores under
    the mask is not observable; the properties below read the result through
    its mask. *)
Definition optimally_scaled_sfs (model obs : SFS) : FSFS :=
  let c := optimal_sfs_scaling model obs in
  mkFSFS (shape model) ((λ m, c * Fin m)%fl <$> data model) (mask model).

(** ** What the specification says, in its own words *)

(** Sum of squared residuals [Σ (data - c·model)²] over the entries
    unmasked in both spectra. *)
Definition sq_residual (model obs : SFS) (c : Qc) : Qc :=
  qsum (compressed
          (zip_with (λ m d, (d - c * m) * (d - c * m))%Qc
                    (data model) (data obs))
          (zip_with orb (mask model) (mask obs))).

(** [Σ_{i=1}^{m} 1/i]. *)
Definition harmonic (m : nat) : Qc :=
  qsum ((λ i, 1 / Qc_of_nat i)%Qc <$> seq 1 m).

(** The sum of the entries that are left once the first and the last entry
    are masked: the unmasked entries among the inner ones. *)
Definition corner_masked_sum (sfs : SFS) : Qc :=
  qsum (compressed (from1 (upto_last (data sfs)))
                   (from1 (upto_last (mask sfs)))).

(** [π = n/(n-1) · 2 · Σ_i sfs[i]·p_i·(1-p_i)], [p_i = i/n], with
    [n/(n-1)] the exact ratio, over the unmasked entries. *)
Definition pi_spec (sfs : SFS) : Qc :=
  let n := Qc_of_Z (shape0 sfs - 1) in
  (n / (n - 1) * 2
   * qsum (compressed
             (imap (λ i s, let p := Qc_of_nat i / n in s * p * (1 - p))
                   (data sfs))
             (mask sfs)))%Qc.

(** Weir and Cockerham's estimator as the specification writes it, every
    quotient an exact rational. *)
Definition Fst_spec (sfs : SFS) : Qc :=
  let r := Qc_of_nat (ndim sfs) in
  let ns := (λ s, Qc_of_nat s - 1)%Qc <$> shape sfs in
  let nsum := qsum ns in
  let nbar := (nsum / r)%Qc in
  let n_c := ((nsum - qsum ((λ n, n * n)%Qc <$> ns) / nsum) / (r - 1))%Qc in
  let entry (idx : list Z) : Qc * Qc :=
    let ptwiddle := zip_with (λ i n, Qc_of_Z i / n)%Qc idx ns in
    let pbar := (qsum (vmul ns ptwiddle) / nsum)%Qc in
    let s2 :=
      (qsum (zip_with (λ n p, n * ((p - pbar) * (p - pbar)))%Qc ns ptwiddle)
       / ((r - 1) * nbar))%Qc in
    let rest := (pbar * (1 - pbar) - (r - 1) / r * s2)%Qc in
    (nbar / n_c * (s2 - rest / (2 * nbar - 1)),
     2 * nbar / (2 * nbar - 1) * rest)%Qc in
  let ad := entry <$> indices (shape sfs) in
  let asum :=
    qsum (compressed (zip_with (λ x e, x * e.1)%Qc (data sfs) ad) (mask sfs)) in
  let dsum :=
    qsum (compressed (zip_with (λ x e, x * e.2)%Qc (data sfs) ad) (mask sfs)) in
  (asum / (asum + dsum))%Qc.

(** Rationals written as a fraction of integers. *)
Definition frac (a : Z) (b : positive) : Qc := Q2Qc (a # b).

(** The shapes [sfs_from_phi_3D] is called with: [phi] has one plane per
    point of [xx], one line per point of [yy], one value per point of [zz],
    and every grid has at least two points. *)
Definition conformable_3D (xx yy zz : list Qc)
    (phi : list (list (list Qc))) : Prop :=
  2 ≤ length xx ∧ 2 ≤ length yy ∧ 2 ≤ length zz
  ∧ length phi = length xx
  ∧ Forall (λ plane,
      length plane = length yy
      ∧ Forall (λ line : list Qc, length line = length zz) plane) phi.

(** The mask [mask_corners] builds before joining it to the spectrum's own:
    the first and the last flat entry set, for a buffer of [m] entries. *)
Definition corner_mask (m : nat) : list bool :=
  <[m - 1 := true]> (<[0 := true]> (replicate m false)).

(** ** Example spectra *)

(** Integer-valued entries. *)
Definition qs (l : list Z) : list Qc := Qc_of_Z <$> l.

(** The one-population spectrum [[0, 2, 3, 1, 0]] of the specification. *)
Definition sfs_02310 : SFS := ndarray [5] (qs [0; 2; 3; 1; 0]%Z).

(** [[0, 1, 1, 0]], with [n = 3]. *)
Definition sfs_0110 : SFS := ndarray [4] (qs [0; 1; 1; 0]%Z).

(** A 2 by 2 spectrum [[1, 2], [3, 4]], plain and with one entry masked. *)
Definition sfs_2x2 : SFS := ndarray [2; 2] (qs [1; 2; 3; 4]%Z).
Definition sfs_2x2_masked : SFS :=
  mkSFS [2; 2] (qs [1; 2; 3; 4]%Z) [false; true; false; false].

(** A 3 by 3 spectrum whose only site is fixed ancestral in the first
    population and fixed derived in the second: entry [(0, 2)]. *)
Definition sfs_3x3_fixed : SFS :=
  ndarray [3; 3] (qs [0; 0; 1; 0; 0; 0; 0; 0; 0]%Z).

(** [c] minimises the sum of squared residuals over the entries unmasked in
    both spectra. *)
Definition is_least_squares_scaling (model obs : SFS) (c : Qc) : Prop :=
  ∀ c' : Qc, (sq_residual model obs c ≤ sq_residual model obs c')%Qc.

(** The entries unmasked in both spectra, of the model and of the data. *)
Definition joint_mask (model obs : SFS) : list bool :=
  zip_with orb (mask model) (mask obs).
Definition joint_sum_model (model obs : SFS) : Qc :=
  qsum (compressed (data model) (joint_mask model obs)).
Definition joint_sum_data (model obs : SFS) : Qc :=
  qsum (compressed (data obs) (joint_mask model obs)).

(** A model [[1, 2]] and data [[1, 3]]. *)
Definition model_12 : SFS := ndarray [2] (qs [1; 2]%Z).
Definition data_13 : SFS := ndarray [2] (qs [1; 3]%Z).

(** ** Vocabulary of the further properties *)

(** [c * v] for a scalar [c] and a vector [v]. *)
Definition vscale (c : Qc) (v : list Qc) : list Qc := (λ x, c * x)%Qc <$> v.

(** [sfs.sum()] of a rank-2 and of a rank-3 array held as nested rows. *)
Definition qsum2 (m : list (list Qc)) : Qc := qsum (qsum <$> m).

Definition qsum3 (t : list (list (list Qc))) : Qc := qsum (qsum2 <$> t).

(** The shapes [sfs_from_phi_2D] is called with: [phi] has one line per
    point of [xx] and one value per point of [yy]. *)
Definition conformable_2D (xx yy : list Qc) (phi : list (list Qc)) : Prop :=
  length phi = length xx ∧ Forall (λ line, length line = length yy) phi.

(** A separable density: [phi[x][y] = f[x] * g[y]]. *)
Definition outer (f g : list Qc) : list (list Qc) :=
  (λ fx, vscale fx g) <$> f.

(** [phi[x][y][z] = f[x] * g[y] * h[z]]. *)
Definition outer3 (f g h : list Qc) : list (list (list Qc)) :=
  (λ fx, (λ gy, vscale (fx * gy) h) <$> g) <$> f.

(** The entry [s[ii,jj]] and the entry [s[ii,jj,kk]] of nested rows. *)
Definition get2 (s : list (list Qc)) (ii jj : nat) : option Qc :=
  row ← s !! ii; row !! jj.

Definition get3 (s : list (list (list Qc))) (ii jj kk : nat) : option Qc :=
  plane ← s !! ii; row ← plane !! jj; row !! kk.

(** The iterated trapezoid integral of
    [C(nx,ii) x^ii (1-x)^(nx-ii) * C(ny,jj) y^jj (1-y)^(ny-jj) * phi(x,y)]:
    over [yy] on every line of [phi], then over [xx]. *)
Definition bin_integral_2D (nx ny : nat) (xx yy : list Qc)
    (phi : list (list Qc)) (ii jj : nat) : Qc :=
  trapz (vmul (binom_factor nx ii xx)
              ((λ line, trapz (vmul (binom_factor ny jj yy) line) yy) <$> phi))
        xx.

(** The same with a third axis: over [zz], then [yy], then [xx]. *)
Definition bin_integral_3D (nx ny nz : nat) (xx yy zz : list Qc)
    (phi : list (list (list Qc))) (ii jj kk : nat) : Qc :=
  trapz (vmul (binom_factor nx ii xx)
           ((λ plane,
               trapz (vmul (binom_factor ny jj yy)
                        ((λ line, trapz (vmul (binom_factor nz kk zz) line) zz)
                           <$> plane))
                     yy) <$> phi))
        xx.

(** [Σ_i sfs[i]·p_i·(1-p_i)], [p_i = i/n], over the unmasked entries. *)
Definition pq_sum (sfs : SFS) : Qc :=
  let n := Qc_of_Z (shape0 sfs - 1) in
  qsum (compressed
          (imap (λ i s, let p := Qc_of_nat i / n in s * p * (1 - p))%Qc
                (data sfs))
          (mask sfs)).

(** The entries a masked reduction of a float spectrum sees. *)
Definition unmasked (a : FSFS) : list float := compressed (fdata a) (fmask a).

(** [k * model] for a scalar [k]: same shape, same mask. *)
Definition scaled (k : Qc) (model : SFS) : SFS :=
  mkSFS (shape model) (vscale k (data model)) (mask model).

(** A grid of three points on [[0, 1]] and densities tabulated on it. *)
Definition grid_3 : list Qc := [0%Qc; frac 1 2; 1%Qc].

Definition phi_123 : list Qc := qs [1; 2; 3]%Z.

Definition phi_312 : list Qc := qs [3; 1; 2]%Z.

Definition phi_3x3 : list (list Qc) :=
  [qs [1; 2; 3]%Z; qs [4; 5; 6]%Z; qs [7; 8; 9]%Z].

Definition phi_3x3x3 : list (list (list Qc)) := replicate 3 phi_3x3.

(** A spectrum with no entry: an axis of length 0. *)
Definition sfs_empty : SFS := ndarray [0] [].

(** * Properties *)

(** ** Sums *)

Lemma qsum_cons (x : Qc) (l : list Qc) : qsum (x :: l) = (x + qsum l)%Qc.
Proof. reflexivity. Qed.

Lemma qsum_app (l k : list Qc) : qsum (l ++ k) = (qsum l + qsum k)%Qc.
Proof.
  induction l as [|x l IH]; [simpl; ring|].
  rewrite <- app_comm_cons, !qsum_cons, IH. ring.
Qed.

Lemma qsum_map_ext {A} (f g : A → Qc) (l : list A) :
  (∀ x, x ∈ l → f x = g x) → qsum (f <$> l) = qsum (g <$> l).
Proof.
  induction l as [|x l IH]; intros H; [done|].
  rewrite !fmap_cons, !qsum_cons, (H x) by set_solver.
  rewrite IH; [done|]. intros y Hy. apply H. set_solver.
Qed.

Lemma qsum_map_plus {A} (f g : A → Qc) (l : list A) :
  qsum ((λ x, f x + g x)%Qc <$> l) = (qsum (f <$> l) + qsum (g <$> l))%Qc.
Proof.
  induction l as [|x l IH]; [simpl; ring|].
  rewrite !fmap_cons, !qsum_cons, IH. ring.
Qed.

Lemma qsum_map_scale {A} (c : Qc) (f : A → Qc) (l : list A) :
  qsum ((λ x, c * f x)%Qc <$> l) = (c * qsum (f <$> l))%Qc.
Proof.
  induction l as [|x l IH]; [simpl; ring|].
  rewrite !fmap_cons, !qsum_cons, IH. ring.
Qed.

Lemma qsum_map_zero {A} (l : list A) : qsum ((λ _, 0%Qc) <$> l) = 0%Qc.
Proof.
  induction l as [|x l IH]; [done|].
  rewrite fmap_cons, qsum_cons, IH. ring.
Qed.

(** ** The binomial factors sum to one *)

Lemma comb_gt (n k : nat) : n < k → comb n k = 0.
Proof.
  revert k. induction n as [|n IH]; intros [|k] Hk; simpl; try lia.
  rewrite !IH by lia. done.
Qed.

Lemma comb_0_r (n : nat) : comb n 0 = 1.
Proof. by destruct n. Qed.

Lemma Qc_of_nat_add (a b : nat) :
  Qc_of_nat (a + b) = (Qc_of_nat a + Qc_of_nat b)%Qc.
Proof. unfold Qc_of_nat. by rewrite Nat2Z.inj_add, Z2Qc_inj_add. Qed.

Lemma Qc_of_nat_0 : Qc_of_nat 0 = 0%Qc.
Proof. apply Z2Qc_inj_0. Qed.

Lemma Qc_of_nat_1 : Qc_of_nat 1 = 1%Qc.
Proof. unfold Qc_of_nat. simpl. apply Z2Qc_inj_1. Qed.

Section Binomial.
Variables p q : Qc.
Local Open Scope Qc_scope.

Local Abbreviation T := (binom_summand p q).

Lemma binomial_sum (n : nat) :
  qsum (T n <$> seq 0 (S n)) = (p + q) ^ n.
Proof.
  induction n as [|n IH].
  { unfold T. simpl. rewrite Qc_of_nat_1. ring. }
  rewrite <- cons_seq, <- fmap_S_seq, fmap_cons, qsum_cons, <- list_fmap_compose.
  rewrite (qsum_map_ext (T (S n) ∘ S)
             (λ j, p * T n j + Qc_of_nat (comb n (S j)) * p ^ S j * q ^ (n - j))).
  2:{ intros j _. unfold T, compose. cbn [comb Qcpower Nat.sub].
      rewrite Qc_of_nat_add. ring. }
  rewrite qsum_map_plus, qsum_map_scale, IH.
  assert (T (S n) 0
          + qsum ((λ j, Qc_of_nat (comb n (S j)) * p ^ S j * q ^ (n - j))
                    <$> seq 0 (S n))
          = q * (p + q) ^ n) as Hq.
  { assert (qsum (T n <$> seq 0 (S n))
            = T n 0 + qsum ((T n ∘ S) <$> seq 0 n)) as HS.
    { by rewrite <- cons_seq, <- fmap_S_seq, fmap_cons, qsum_cons,
        <- list_fmap_compose. }
    rewrite <- IH, HS, seq_S, fmap_app, qsum_app, Nat.add_0_l.
    cbn [fmap list_fmap qsum foldr].
    rewrite (comb_gt n (S n)) by lia. rewrite Qc_of_nat_0.
    rewrite (qsum_map_ext
               (λ j, Qc_of_nat (comb n (S j)) * p ^ S j * q ^ (n - j))
               (λ j, q * (T n ∘ S) j)).
    2:{ intros j Hj%elem_of_seq. unfold T, compose.
        replace (n - j)%nat with (S (n - S j)) by lia.
        cbn [Qcpower]. ring. }
    rewrite qsum_map_scale. unfold T, compose.
    rewrite !comb_0_r, !Nat.sub_0_r, Qc_of_nat_1. cbn [Qcpower]. ring. }
  change ((p + q) ^ S n) with ((p + q) * (p + q) ^ n).
  transitivity (p * (p + q) ^ n + q * (p + q) ^ n); [|ring].
  rewrite <- Hq. ring.
Qed.
End Binomial.

Lemma binom_term_sum (n : nat) (x : Qc) :
  qsum ((λ ii, binom_term n ii x) <$> seq 0 (n + 1)) = 1%Qc.
Proof.
  rewrite Nat.add_1_r.
  rewrite (qsum_map_ext _ (binom_summand x (1 - x) n)) by done.
  rewrite (binomial_sum x (1 - x)%Qc n).
  replace (x + (1 - x))%Qc with 1%Qc by ring. apply Qcpower_1.
Qed.

(** ** Loops that fill an array by index *)

Lemma fill_loop_prefix {A} (f : nat → A) (d : A) (m k : nat) :
  k ≤ m →
  foldl (λ a i, <[i := f i]> a) (replicate m d) (seq 0 k)
  = (f <$> seq 0 k) ++ replicate (m - k) d.
Proof.
  induction k as [|k IH]; intros Hk.
  { simpl. by rewrite Nat.sub_0_r. }
  rewrite seq_S, foldl_app, IH by lia. simpl.
  rewrite insert_app_r_alt by (rewrite length_fmap, length_seq; lia).
  rewrite length_fmap, length_seq, Nat.sub_diag.
  replace (m - k) with (S (m - S k)) by lia. simpl.
  rewrite fmap_app. simpl. by rewrite <- app_assoc.
Qed.

Lemma fill_loop {A} (f : nat → A) (d : A) (m : nat) :
  foldl (λ a i, <[i := f i]> a) (replicate m d) (seq 0 m) = f <$> seq 0 m.
Proof.
  rewrite fill_loop_prefix by lia.
  rewrite Nat.sub_diag. simpl. apply app_nil_r.
Qed.

Lemma sfs_from_phi_1D_entries (n : nat) (xx phi : list Qc) :
  sfs_from_phi_1D n xx phi
  = (λ ii, trapz (vmul (binom_factor n ii xx) phi) xx) <$> seq 0 (n + 1).
Proof. unfold sfs_from_phi_1D. apply fill_loop. Qed.

(** ** The trapezoid rule on a tabulated function *)

Lemma from1_fmap {A B} (g : A → B) (l : list A) :
  from1 (g <$> l) = g <$> from1 l.
Proof. unfold from1. by rewrite fmap_drop. Qed.

Lemma upto_last_fmap {A B} (g : A → B) (l : list A) :
  upto_last (g <$> l) = g <$> upto_last l.
Proof. unfold upto_last. by rewrite length_fmap, fmap_take. Qed.

Lemma zip_with_zip_with {A B C D E} (f : C → D → E) (g : A → B → C)
    (h : A → B → D) (a : list A) (b : list B) :
  zip_with f (zip_with g a b) (zip_with h a b)
  = zip_with (λ x y, f (g x y) (h x y)) a b.
Proof.
  revert b. induction a as [|x a IH]; intros [|y b]; simpl; [done..|].
  by rewrite IH.
Qed.

Lemma fmap_zip_with_compose {A B C D} (f : C → D) (g : A → B → C)
    (a : list A) (b : list B) :
  f <$> zip_with g a b = zip_with (λ x y, f (g x y)) a b.
Proof.
  revert b. induction a as [|x a IH]; intros [|y b]; simpl; [done..|].
  by rewrite <- IH.
Qed.

Lemma qsum_zip_with_plus {A B} (f g : A → B → Qc) (a : list A) (b : list B) :
  qsum (zip_with (λ x y, f x y + g x y)%Qc a b)
  = (qsum (zip_with f a b) + qsum (zip_with g a b))%Qc.
Proof.
  revert b. induction a as [|x a IH]; intros [|y b]; simpl; try ring.
  rewrite IH. ring.
Qed.

Lemma qsum_zip_with_zero {A B} (a : list A) (b : list B) :
  qsum (zip_with (λ _ _, 0%Qc) a b) = 0%Qc.
Proof.
  revert b. induction a as [|x a IH]; intros [|y b]; simpl; try done.
  rewrite IH. ring.
Qed.

(** Sums over the bins and over the grid intervals commute. *)
Lemma qsum_interchange {I A B} (h : I → A → B → Qc) (bins : list I)
    (a : list A) (b : list B) :
  qsum ((λ i, qsum (zip_with (h i) a b)) <$> bins)
  = qsum (zip_with (λ x y, qsum ((λ i, h i x y) <$> bins)) a b).
Proof.
  induction bins as [|i bins IH].
  { simpl. by rewrite qsum_zip_with_zero. }
  rewrite fmap_cons, qsum_cons, IH.
  rewrite <- (qsum_zip_with_plus (h i)). done.
Qed.

Lemma trapz_tabulated (g : Qc → Qc) (xx : list Qc) :
  trapz (g <$> xx) xx
  = qsum (zip_with (λ x y, (x - y) * (g x + g y) / 2)%Qc
                   (from1 xx) (upto_last xx)).
Proof.
  unfold trapz, trapz_dx, diff, vmul, vadd, vsub.
  rewrite from1_fmap, upto_last_fmap, zip_with_fmap_l, zip_with_fmap_r.
  by rewrite zip_with_zip_with, fmap_zip_with_compose.
Qed.

(** ** C3: the bins of a uniform density add up to its integral *)

Lemma binom_term_one_sum (n : nat) (x : Qc) :
  qsum ((λ ii, binom_term n ii x * 1)%Qc <$> seq 0 (n + 1)) = 1%Qc.
Proof.
  rewrite (qsum_map_ext _ (λ ii, binom_term n ii x)) by (intros; ring).
  apply binom_term_sum.
Qed.

(** C3.  For every [n], every grid [xx] of at least two points and the
    density that is 1 at every grid point, the entries of
    [sfs_from_phi_1D n xx phi] add up to the trapezoid-rule integral of
    [phi] over [xx]. *)
Theorem sfs_from_phi_1D_uniform_sum (n : nat) (xx : list Qc) :
  2 ≤ length xx →
  qsum (sfs_from_phi_1D n xx (replicate (length xx) 1%Qc))
  = trapz (replicate (length xx) 1%Qc) xx.
Proof.
  intros _. rewrite sfs_from_phi_1D_entries.
  rewrite (qsum_map_ext _
    (λ ii, qsum (zip_with
                   (λ x y, (x - y) * (binom_term n ii x * 1 + binom_term n ii y * 1) / 2)%Qc
                   (from1 xx) (upto_last xx)))).
  2:{ intros ii _. unfold vmul, binom_factor.
      rewrite zip_with_replicate_r_eq by by rewrite length_fmap.
      rewrite <- list_fmap_compose.
      apply (trapz_tabulated (λ x, binom_term n ii x * 1)%Qc). }
  rewrite (qsum_interchange
    (λ ii x y, (x - y) * (binom_term n ii x * 1 + binom_term n ii y * 1) / 2)%Qc).
  replace (replicate (length xx) 1%Qc) with ((λ _ : Qc, 1%Qc) <$> xx)
    by (clear; induction xx as [|a l IH]; [done | csimpl; by rewrite IH]).
  rewrite (trapz_tabulated (λ _, 1%Qc)).
  f_equal. apply zip_with_ext; [|done..]. intros x y.
  rewrite (qsum_map_ext _
    (λ ii, (x - y) / 2 * (binom_term n ii x * 1)
           + (x - y) / 2 * (binom_term n ii y * 1))%Qc).
  2:{ intros ii _. unfold Qcdiv. ring. }
  rewrite qsum_map_plus, !qsum_map_scale, !binom_term_one_sum.
  unfold Qcdiv. ring.
Qed.

Lemma sfs_from_phi_1D_uniform_sum_witness :
  let xx := [0%Qc; frac 1 2; 1%Qc] in
  2 ≤ length xx
  ∧ qsum (sfs_from_phi_1D 2 xx (replicate (length xx) 1%Qc))
    = trapz (replicate (length xx) 1%Qc) xx.
Proof.
  simpl. split; [lia|].
  apply (sfs_from_phi_1D_uniform_sum 2 [0%Qc; frac 1 2; 1%Qc]). simpl; lia.
Defined.

(** ** C4: the explicit half-step sum is the trapezoid rule *)

Lemma foldl_ext {A B} (f g : A → B → A) (a : A) (l : list B) :
  (∀ a x, f a x = g a x) → foldl f a l = foldl g a l.
Proof.
  intros H. revert a. induction l as [|x l IH]; intros a; simpl; [done|].
  by rewrite H, IH.
Qed.

Lemma half_step_sum (dx s : list Qc) :
  qsum (vmul ((λ v, v / 2)%Qc <$> dx) s)
  = qsum ((λ v, v / 2)%Qc <$> vmul dx s).
Proof.
  unfold vmul. rewrite zip_with_fmap_l, fmap_zip_with_compose.
  f_equal. apply zip_with_ext; [|done..]. intros x y. unfold Qcdiv. ring.
Qed.

(** C4.  On conformable inputs, the explicit innermost sum
    [sum(dx/2 * (f[1:] + f[:-1]))] with [dx = diff(xx)] is the general
    trapezoid rule of [f] over [xx], and [sfs_from_phi_3D] returns what the
    variant calling the general primitive on the innermost axis returns. *)
Theorem sfs_from_phi_3D_half_step (nx ny nz : nat) (xx yy zz : list Qc)
    (phi : list (list (list Qc))) :
  conformable_3D xx yy zz phi →
  (∀ f : list Qc, length f = length xx →
     qsum (vmul ((λ v, v / 2)%Qc <$> diff xx) (vadd (from1 f) (upto_last f)))
     = trapz f xx)
  ∧ sfs_from_phi_3D nx ny nz xx yy zz phi
    = sfs_from_phi_3D_general nx ny nz xx yy zz phi.
Proof.
  intros _. split.
  { intros f _. apply half_step_sum. }
  unfold sfs_from_phi_3D, sfs_from_phi_3D_general. cbv zeta.
  apply foldl_ext; intros sfs kk.
  apply foldl_ext; intros sfs' jj.
  apply foldl_ext; intros sfs'' ii.
  f_equal. apply half_step_sum.
Qed.

Lemma sfs_from_phi_3D_half_step_witness :
  let g := [0%Qc; frac 1 2; 1%Qc] in
  let phi := replicate 3 (replicate 3 (replicate 3 1%Qc)) in
  conformable_3D g g g phi
  ∧ sfs_from_phi_3D 1 1 1 g g g phi = sfs_from_phi_3D_general 1 1 1 g g g phi.
Proof.
  assert (conformable_3D [0%Qc; frac 1 2; 1%Qc] [0%Qc; frac 1 2; 1%Qc]
            [0%Qc; frac 1 2; 1%Qc]
            (replicate 3 (replicate 3 (replicate 3 1%Qc)))) as H.
  { unfold conformable_3D. simpl. repeat split; try lia.
    repeat constructor. }
  split; [exact H|].
  exact (proj2 (sfs_from_phi_3D_half_step 1 1 1 _ _ _ _ H)).
Defined.

Lemma factor_cache_lookup (n ii : nat) (xx : list Qc) :
  ii ≤ n → factor_cache n xx !! (n, ii) = Some (binom_factor n ii xx).
Proof.
  unfold factor_cache. intros Hii.
  assert (∀ k, ii < k →
    foldl (λ cache ii, <[(n, ii) := binom_factor n ii xx]> cache)
          (∅ : gmap (nat * nat) (list Qc)) (seq 0 k) !! (n, ii)
    = Some (binom_factor n ii xx)) as H.
  { induction k as [|k IH]; intros Hk; [lia|].
    rewrite seq_S, foldl_snoc. simpl.
    destruct (decide (ii = k)) as [->|Hne].
    - apply lookup_insert_eq.
    - rewrite lookup_insert_ne by congruence. apply IH. lia. }
  apply H. lia.
Qed.

(** ** C9: mask_corners *)

Lemma shape_size_pos (sh : list nat) :
  Forall (λ s, 1 ≤ s) sh → 1 ≤ shape_size sh.
Proof.
  induction 1 as [|s sh Hs _ IH]; simpl; [lia|]. nia.
Qed.

Lemma py_index_first (m : nat) : 1 ≤ m → py_index m 0 = Ret 0.
Proof.
  intros Hm. unfold py_index. rewrite bool_decide_eq_true_2 by lia. done.
Qed.

Lemma py_index_last (m : nat) : 1 ≤ m → py_index m (-1) = Ret (m - 1).
Proof.
  intros Hm. unfold py_index.
  rewrite bool_decide_eq_false_2 by lia.
  rewrite bool_decide_eq_true_2 by lia.
  f_equal. lia.
Qed.

Lemma mask_corners_eq (sfs : SFS) :
  1 ≤ shape_size (shape sfs) →
  mask_corners sfs
  = Ret (masked_array sfs (corner_mask (shape_size (shape sfs)))).
Proof.
  intros Hm. unfold mask_corners, flat_set.
  rewrite length_replicate, py_index_first by done. simpl.
  rewrite length_insert, length_replicate, py_index_last by done. done.
Qed.

Lemma zip_orb_insert_true (a b : list bool) (i : nat) :
  zip_with orb (<[i := true]> a) b = <[i := true]> (zip_with orb a b).
Proof.
  revert b i. induction a as [|x a IH]; intros [|y b] [|i]; simpl; try done.
  by rewrite IH.
Qed.

Lemma zip_orb_idem (a b : list bool) :
  zip_with orb a (zip_with orb a b) = zip_with orb a b.
Proof.
  revert b. induction a as [|x a IH]; intros [|y b]; simpl; try done.
  rewrite IH. by destruct x, y.
Qed.

Lemma masked_array_corner_mask (sfs : SFS) :
  length (mask sfs) = shape_size (shape sfs) →
  mask (masked_array sfs (corner_mask (shape_size (shape sfs))))
  = <[shape_size (shape sfs) - 1 := true]> (<[0 := true]> (mask sfs)).
Proof.
  intros Hlen. unfold masked_array, corner_mask. simpl.
  rewrite !zip_orb_insert_true.
  rewrite zip_with_replicate_l by lia.
  by rewrite list_fmap_id.
Qed.

(** The two corners in C order: the first multi-index is all zeros, the last
    one is all [n_k]. *)
Lemma indices_first (sh : list nat) :
  Forall (λ s, 1 ≤ s) sh → indices sh !! 0 = Some ((λ _, 0%Z) <$> sh).
Proof.
  induction 1 as [|s sh Hs _ IH]; [done|].
  cbn [indices]. rewrite seqZ_cons by lia. csimpl.
  destruct (indices sh) as [|idx rest]; [done|].
  simpl in *. by simplify_eq.
Qed.

Lemma indices_last (sh : list nat) :
  Forall (λ s, 1 ≤ s) sh →
  last (indices sh) = Some ((λ s, Z.of_nat s - 1)%Z <$> sh).
Proof.
  induction 1 as [|s sh Hs _ IH]; [done|].
  cbn [indices].
  replace (Z.of_nat s) with (Z.of_nat (S (s - 1))) at 1 by lia.
  rewrite seqZ_S, bind_app. csimpl. rewrite app_nil_r.
  destruct (indices sh) as [|idx rest _] using rev_ind; [done|].
  rewrite fmap_app, app_assoc. csimpl. rewrite !last_snoc in *.
  simplify_eq. do 2 f_equal. lia.
Qed.

Lemma length_indices (sh : list nat) : length (indices sh) = shape_size sh.
Proof.
  induction sh as [|s sh IH]; [done|].
  cbn [indices shape_size foldr].
  change (foldr Nat.mul 1 sh) with (shape_size sh). rewrite <- IH.
  generalize (indices sh) as l. intros l.
  rewrite <- (Nat2Z.id s) at 2. generalize (Z.of_nat s) as z.
  intros z. assert (∀ (k : nat) (a : Z),
    length (seqZ a (Z.of_nat k) ≫= λ i, (i ::.) <$> l) = k * length l) as H.
  { induction k as [|k IHk]; intros a; [done|].
    rewrite seqZ_cons by lia. csimpl.
    rewrite length_app, length_fmap.
    replace (Z.pred (Z.of_nat (S k))) with (Z.of_nat k) by lia.
    by rewrite IHk. }
  destruct (decide (0 ≤ z)%Z) as [Hz|Hz].
  - rewrite <- (Z2Nat.id z) at 1 by done. apply H.
  - rewrite seqZ_nil by lia. replace (Z.to_nat z) with 0 by lia. done.
Qed.

(** C9.  On every spectrum [mask_corners] succeeds, its result is a fixed
    point of [mask_corners] (same mask, same entries), the entries are those
    of the input, the mask is the input's with the two corner entries set,
    every entry masked in the input is masked in the result, and the two
    entries set are the all-zeros and the all-[n_k] multi-indices. *)
Theorem mask_corners_idempotent_additive (sfs : SFS) :
  wf_sfs sfs →
  ∃ out : SFS,
    mask_corners sfs = Ret out
    ∧ mask_corners out = Ret out
    ∧ shape out = shape sfs
    ∧ data out = data sfs
    ∧ mask out
      = <[shape_size (shape sfs) - 1 := true]> (<[0 := true]> (mask sfs))
    ∧ (∀ i, mask sfs !! i = Some true → mask out !! i = Some true)
    ∧ indices (shape sfs) !! 0 = Some ((λ _, 0%Z) <$> shape sfs)
    ∧ indices (shape sfs) !! (shape_size (shape sfs) - 1)
      = Some ((λ s, Z.of_nat s - 1)%Z <$> shape sfs).
Proof.
  intros (Hsh & Hdata & Hmask).
  pose proof (shape_size_pos _ Hsh) as Hpos.
  eexists. split; [by apply mask_corners_eq|].
  split.
  { rewrite mask_corners_eq by done. unfold masked_array. simpl.
    by rewrite zip_orb_idem. }
  split; [done|]. split; [done|].
  split; [by apply masked_array_corner_mask|].
  split.
  { intros i Hi. rewrite masked_array_corner_mask by done.
    destruct (decide (i = shape_size (shape sfs) - 1)) as [->|Hne1].
    { apply list_lookup_insert_eq. rewrite length_insert. lia. }
    rewrite list_lookup_insert_ne by done.
    destruct (decide (i = 0)) as [->|Hne0].
    { apply list_lookup_insert_eq. lia. }
    by rewrite list_lookup_insert_ne. }
  split; [by apply indices_first|].
  rewrite <- (indices_last _ Hsh), last_lookup, length_indices.
  f_equal. lia.
Qed.

(** ** C10: the rank check of the single-population statistics *)

Lemma py_index_raises (len : nat) (i : Z) (e : exn) :
  py_index len i = Raise e → e = IndexError.
Proof.
  unfold py_index. repeat case_bool_decide; intros ?; by simplify_eq.
Qed.

Lemma mask_corners_raises (sfs : SFS) (e : exn) :
  mask_corners sfs = Raise e → e = IndexError.
Proof.
  unfold mask_corners, flat_set.
  destruct (py_index _ 0) as [k0|e0] eqn:E0; simpl.
  - destruct (py_index _ (-1)) as [k1|e1] eqn:E1; simpl; [done|].
    intros H. simplify_eq. by eapply py_index_raises.
  - intros H. simplify_eq. by eapply py_index_raises.
Qed.

Lemma py_idiv_raises (a b : Z) (e : exn) :
  py_idiv a b = Raise e → e = ZeroDivisionError.
Proof. unfold py_idiv. case_bool_decide; intros ?; by simplify_eq. Qed.

Lemma py_fdiv_raises (x y : float) (e : exn) :
  py_fdiv x y = Raise e → e = ZeroDivisionError.
Proof.
  unfold py_fdiv. destruct y as [b| |]; [|done..].
  destruct (is_zero b); intros H; by simplify_eq.
Qed.

Lemma Watterson_theta_raises (sfs : SFS) (e : exn) :
  ndim sfs = 1 → Watterson_theta sfs = Raise e → e = IndexError.
Proof.
  intros Hr. unfold Watterson_theta.
  rewrite bool_decide_eq_false_2 by (by intros []).
  destruct (mask_corners sfs) as [m|e'] eqn:E; simpl; [done|].
  intros H. simplify_eq. by eapply mask_corners_raises.
Qed.

Lemma pi_raises (sfs : SFS) (e : exn) :
  ndim sfs = 1 → pi sfs = Raise e → e = ZeroDivisionError.
Proof.
  intros Hr. unfold pi.
  rewrite bool_decide_eq_false_2 by (by intros []).
  destruct (py_idiv _ _) as [k|e'] eqn:E; simpl; [done|].
  intros H. simplify_eq. by eapply py_idiv_raises.
Qed.

Lemma Tajima_D_raises (np_sqrt : float → float) (sfs : SFS) (e : exn) :
  ndim sfs = 1 → Tajima_D np_sqrt sfs = Raise e →
  e = IndexError ∨ e = ZeroDivisionError.
Proof.
  intros Hr. unfold Tajima_D.
  rewrite bool_decide_eq_false_2 by (by intros []).
  destruct (mask_corners sfs) as [m|e1] eqn:E1; cbn [mbind result_bind].
  2:{ intros H. simplify_eq. left. by eapply mask_corners_raises. }
  destruct (pi sfs) as [pihat|e2] eqn:E2; cbn [mbind result_bind].
  2:{ intros H. simplify_eq. right. by eapply pi_raises. }
  destruct (Watterson_theta sfs) as [theta|e3] eqn:E3; cbn [mbind result_bind].
  2:{ intros H. simplify_eq. left. by eapply Watterson_theta_raises. }
  destruct (py_fdiv (fadd _ _) _) as [b1|e4] eqn:E4; cbn [mbind result_bind].
  2:{ intros H. simplify_eq. right. by eapply py_fdiv_raises. }
  destruct (py_fdiv (fmul _ _) _) as [b2|e5] eqn:E5; cbn [mbind result_bind].
  { cbv zeta. intros H. discriminate H. }
  intros H. simplify_eq. right. by eapply py_fdiv_raises.
Qed.

(** C10.  On a spectrum whose rank is not 1, [Watterson_theta], [pi] and
    [Tajima_D] each raise the dimensionality error; on a spectrum of rank 1
    none of them raises a [ValueError]. *)
Theorem statistics_rank_check (np_sqrt : float → float) (sfs : SFS) :
  (ndim sfs ≠ 1 →
     Watterson_theta sfs = Raise dim_error
     ∧ pi sfs = Raise dim_error
     ∧ Tajima_D np_sqrt sfs = Raise dim_error)
  ∧ (ndim sfs = 1 → ∀ msg,
       Watterson_theta sfs ≠ Raise (ValueError msg)
       ∧ pi sfs ≠ Raise (ValueError msg)
       ∧ Tajima_D np_sqrt sfs ≠ Raise (ValueError msg)).
Proof.
  split.
  - intros Hr. unfold Watterson_theta, pi, Tajima_D.
    by rewrite !bool_decide_eq_true_2 by done.
  - intros Hr msg. repeat split; intros H.
    + by apply Watterson_theta_raises in H.
    + by apply pi_raises in H.
    + by apply Tajima_D_raises in H as [?|?].
Qed.

Lemma statistics_rank_check_witness :
  (Watterson_theta sfs_2x2 = Raise dim_error
   ∧ pi sfs_2x2 = Raise dim_error
   ∧ Tajima_D id sfs_2x2 = Raise dim_error)
  ∧ (∀ msg,
       Watterson_theta sfs_02310 ≠ Raise (ValueError msg)
       ∧ pi sfs_02310 ≠ Raise (ValueError msg)
       ∧ Tajima_D id sfs_02310 ≠ Raise (ValueError msg)).
Proof.
  split.
  - apply (statistics_rank_check id sfs_2x2). unfold ndim. simpl. lia.
  - apply (statistics_rank_check id sfs_02310). reflexivity.
Defined.

Lemma wf_sfs_2x2_masked : wf_sfs sfs_2x2_masked.
Proof. unfold wf_sfs. simpl. repeat split; repeat constructor. Qed.

Lemma mask_corners_idempotent_additive_witness :
  wf_sfs sfs_2x2_masked
  ∧ ∃ out : SFS,
      mask_corners sfs_2x2_masked = Ret out
      ∧ mask_corners out = Ret out
      ∧ data out = qs [1; 2; 3; 4]%Z
      ∧ mask out = [true; true; false; true].
Proof.
  split; [exact wf_sfs_2x2_masked|].
  destruct (mask_corners_idempotent_additive sfs_2x2_masked wf_sfs_2x2_masked)
    as (out & H1 & H2 & _ & H4 & H5 & _).
  exists out. repeat split; assumption.
Defined.

(** ** C8: Watterson's theta *)

Lemma fsum_Fin_from (a : Qc) (l : list Qc) :
  foldl fadd (Fin a) (Fin <$> l) = Fin (a + qsum l).
Proof.
  revert a. induction l as [|x l IH]; intros a.
  { simpl. f_equal. ring. }
  rewrite fmap_cons, qsum_cons. cbn [foldl fadd]. rewrite IH. f_equal. ring.
Qed.

Lemma fsum_Fin (l : list Qc) : fsum (Fin <$> l) = Fin (qsum l).
Proof. unfold fsum. rewrite fsum_Fin_from. f_equal. ring. Qed.

Lemma seqZ_of_nat (a k : nat) :
  seqZ (Z.of_nat a) (Z.of_nat k) = Z.of_nat <$> seq a k.
Proof.
  revert a. induction k as [|k IH]; intros a; [done|].
  rewrite seqZ_cons by lia. csimpl.
  replace (Z.succ (Z.of_nat a)) with (Z.of_nat (S a)) by lia.
  replace (Z.pred (Z.of_nat (S k))) with (Z.of_nat k) by lia.
  by rewrite IH.
Qed.

Lemma Qc_of_nat_pos (i : nat) : 1 ≤ i → (0 < Qc_of_nat i)%Qc.
Proof.
  intros Hi. unfold Qc_of_nat.
  apply (Z2Qc_inj_lt 0 (Z.of_nat i)). lia.
Qed.

Lemma is_zero_false (q : Qc) : q ≠ 0%Qc → is_zero q = false.
Proof. intros H. unfold is_zero. by apply bool_decide_eq_false_2. Qed.

Lemma fdiv_Fin (a b : Qc) : b ≠ 0%Qc → fdiv (Fin a) (Fin b) = Fin (a / b).
Proof. intros H. unfold fdiv. by rewrite is_zero_false. Qed.

Lemma reciprocals_arange (k : nat) :
  (λ i, 1 / of_Z i)%fl <$> arange 1 (Z.of_nat (S k))
  = Fin <$> ((λ i, 1 / Qc_of_nat i)%Qc <$> seq 1 k).
Proof.
  unfold arange.
  replace (Z.of_nat (S k) - 1)%Z with (Z.of_nat k) by lia.
  change (seqZ 1 (Z.of_nat k)) with (seqZ (Z.of_nat 1) (Z.of_nat k)).
  rewrite (seqZ_of_nat 1 k), <- !list_fmap_compose.
  apply Forall_fmap_ext, Forall_forall. intros i Hi%elem_of_seq.
  unfold compose, of_Z. rewrite fdiv_Fin; [done|].
  symmetry. apply Qclt_not_eq, Qc_of_nat_pos. lia.
Qed.

Lemma harmonic_pos (m : nat) : 1 ≤ m → (0 < harmonic m)%Qc.
Proof.
  intros Hm. unfold harmonic.
  assert (∀ a k, 1 ≤ a →
    (0 ≤ qsum ((λ i, 1 / Qc_of_nat i)%Qc <$> seq a k))%Qc) as Hnn.
  { intros a k. revert a. induction k as [|k IH]; intros a Ha; [done|].
    rewrite <- cons_seq, fmap_cons, qsum_cons. apply Qcplus_nonneg_nonneg.
    - apply Qclt_le_weak. unfold Qcdiv. rewrite Qcmult_1_l.
      apply Qcinv_pos, Qc_of_nat_pos. lia.
    - apply IH. lia. }
  destruct m as [|m]; [lia|]. rewrite <- cons_seq, fmap_cons, qsum_cons.
  apply Qcplus_pos_nonneg; [|apply Hnn; lia].
  unfold Qcdiv. rewrite Qcmult_1_l. apply Qcinv_pos, Qc_of_nat_pos. lia.
Qed.

Lemma upto_last_snoc {A} (l : list A) (y : A) : upto_last (l ++ [y]) = l.
Proof.
  unfold upto_last. rewrite length_app. simpl.
  replace (length l + 1 - 1) with (length l) by lia.
  by rewrite take_app_length.
Qed.

Lemma compressed_app {A} (l1 l2 : list A) (m1 m2 : list bool) :
  length l1 = length m1 →
  compressed (l1 ++ l2) (m1 ++ m2) = compressed l1 m1 ++ compressed l2 m2.
Proof.
  revert m1. induction l1 as [|x l1 IH]; intros [|b m1] Hlen;
    simplify_eq/=; [done|].
  rewrite IH by done. by destruct b.
Qed.

(** Masking the first and the last entry leaves the inner entries. *)
Lemma compressed_corners {A} (d : list A) (mk : list bool) :
  length d = length mk → 2 ≤ length d →
  compressed d (<[length d - 1 := true]> (<[0 := true]> mk))
  = compressed (from1 (upto_last d)) (from1 (upto_last mk)).
Proof.
  intros Hlen Hd.
  destruct d as [|x d]; [simpl in Hd; lia|].
  destruct mk as [|b mk]; [done|].
  destruct d as [|y d _] using rev_ind; [simpl in Hd; lia|].
  destruct mk as [|c mk _] using rev_ind.
  { simpl in Hlen. rewrite length_app in Hlen. simpl in Hlen. lia. }
  assert (length d = length mk) as Hlen'.
  { simpl in Hlen. rewrite !length_app in Hlen. simpl in Hlen. lia. }
  rewrite !(app_comm_cons _ _ _), !upto_last_snoc.
  unfold from1. cbn [drop].
  rewrite <- !app_comm_cons. cbn [length]. rewrite length_app. cbn [length].
  replace (S (length d + 1) - 1) with (S (length mk + 0)) by lia.
  assert (<[S (length mk + 0) := true]> (<[0 := true]> (b :: mk ++ [c]))
          = true :: mk ++ [true]) as ->.
  { change (<[0 := true]> (b :: mk ++ [c])) with (true :: mk ++ [c]).
    change (<[S (length mk + 0) := true]> (true :: mk ++ [c]))
      with (true :: <[length mk + 0 := true]> (mk ++ [c])).
    by rewrite (insert_app_r mk [c] 0 true). }
  cbn [compressed]. rewrite compressed_app by done.
  cbn [compressed]. apply app_nil_r.
Qed.

Lemma ma_sum_mask_corners (sfs : SFS) :
  wf_sfs sfs → 2 ≤ length (data sfs) →
  ma_sum (masked_array sfs (corner_mask (shape_size (shape sfs))))
  = corner_masked_sum sfs.
Proof.
  intros (Hsh & Hdata & Hmask) Hd. unfold ma_sum, corner_masked_sum.
  rewrite masked_array_corner_mask by done. cbn [data masked_array].
  rewrite <- Hdata. rewrite compressed_corners by congruence. done.
Qed.

(** C8.  On a one-dimensional spectrum of length [n + 1] with [n >= 2],
    [Watterson_theta] returns [S / Σ_{i=1}^{n-1} 1/i], where [S] is the sum
    of the entries left when the first and the last are masked; on
    [[0, 2, 3, 1, 0]] that is [6 / (1 + 1/2 + 1/3) = 36/11].  [S] is a
    number when some entry between the corners is unmasked, which is what
    the last hypothesis says; a spectrum that carries no mask of its own
    always has one. *)
Theorem Watterson_theta_value :
  (∀ (sfs : SFS) (n : nat),
     wf_sfs sfs → shape sfs = [n + 1] → 2 ≤ n →
     false ∈ from1 (upto_last (mask sfs)) →
     Watterson_theta sfs
     = Ret (Fin (corner_masked_sum sfs / harmonic (n - 1))))
  ∧ Watterson_theta sfs_02310 = Ret (Fin (frac 36 11)).
Proof.
  split.
  - intros sfs n Hwf Hshape Hn _.
    pose proof Hwf as (Hsh & Hdata & Hmask).
    assert (shape_size (shape sfs) = n + 1) as Hsize.
    { rewrite Hshape. simpl. lia. }
    unfold Watterson_theta.
    rewrite bool_decide_eq_false_2 by (unfold ndim; rewrite Hshape; auto).
    rewrite mask_corners_eq by lia. cbn [mbind result_bind].
    rewrite ma_sum_mask_corners by (done || lia).
    unfold shape0. rewrite Hshape. cbn [lookup list_lookup default].
    unfold id.
    replace (Z.of_nat (n + 1) - 1)%Z with (Z.of_nat (S (n - 1))) by lia.
    rewrite reciprocals_arange, fsum_Fin.
    change (qsum ((λ i, 1 / Qc_of_nat i)%Qc <$> seq 1 (n - 1)))
      with (harmonic (n - 1)).
    rewrite fdiv_Fin; [done|].
    symmetry. apply Qclt_not_eq, harmonic_pos. lia.
  - vm_compute. reflexivity.
Qed.

Lemma wf_sfs_02310 : wf_sfs sfs_02310.
Proof. unfold wf_sfs. simpl. repeat split; repeat constructor. Qed.

Lemma Watterson_theta_value_witness :
  wf_sfs sfs_02310 ∧ shape sfs_02310 = [4 + 1] ∧ 2 ≤ 4
  ∧ false ∈ from1 (upto_last (mask sfs_02310))
  ∧ Watterson_theta sfs_02310
    = Ret (Fin (corner_masked_sum sfs_02310 / harmonic (4 - 1))).
Proof.
  assert (false ∈ from1 (upto_last (mask sfs_02310))) as Hm
    by (simpl; constructor).
  split; [exact wf_sfs_02310|]. split; [reflexivity|]. split; [lia|].
  split; [exact Hm|].
  apply (proj1 Watterson_theta_value sfs_02310 4);
    [exact wf_sfs_02310 | reflexivity | lia | exact Hm].
Defined.

(** ** C7: randomly_resampled_2D stops at the unbound name *)

Lemma for_each_invariant {A St} (P : St → Prop) (Q : A → Prop)
    (body : St → A → result St) (xs : list A) (st : St) :
  (∀ st x, P st → Q x → ∃ st', body st x = Ret st' ∧ P st') →
  Forall Q xs → P st →
  ∃ st', for_each body xs st = Ret st' ∧ P st'.
Proof.
  intros Hbody Hxs. revert st.
  induction Hxs as [|x xs Hx _ IH]; intros st Hst; [by exists st|].
  destruct (Hbody st x Hst Hx) as (st1 & Hb & Hst1).
  cbn [for_each]. rewrite Hb. cbn [mbind result_bind]. by apply IH.
Qed.

Lemma Forall_enumerate {A} (l : list A) :
  Forall (λ p, (0 ≤ p.1 < Z.of_nat (length l))%Z ∧ p.2 ∈ l) (enumerate l).
Proof.
  apply Forall_forall. intros [i x] Hin. unfold enumerate in Hin. split.
  - apply elem_of_zip_l in Hin. apply elem_of_seqZ in Hin. simpl. lia.
  - by apply elem_of_zip_r in Hin.
Qed.

Lemma rows_length {A} (s1 s2 : nat) (l : list A) :
  length (rows s1 s2 l) = s1
  ∧ Forall (λ row, length row ≤ s2) (rows s1 s2 l).
Proof.
  unfold rows. split; [by rewrite length_reshape, length_replicate|].
  revert l. induction s1 as [|s1 IH]; intros l; [constructor|].
  cbn [replicate reshape]. constructor; [|apply IH].
  rewrite length_take. lia.
Qed.

Lemma py_index_in_range (len : nat) (i : Z) :
  (0 ≤ i < Z.of_nat len)%Z → py_index len i = Ret (Z.to_nat i).
Proof. intros Hi. unfold py_index. by rewrite bool_decide_eq_true_2. Qed.

Lemma load_name_lncomb : load_name "lncomb" = Raise (NameError "lncomb").
Proof. reflexivity. Qed.

(** C7.  On every rank-2 spectrum, whatever [lncomb] and [numpy.exp] would
    compute, [randomly_resampled_2D] pools the counts and then raises
    [NameError] for [lncomb] at the first probability: the module never
    binds that name.  It returns no spectrum. *)
Theorem randomly_resampled_2D_unbound_name
    (lncomb_impl : Z → Z → float) (np_exp : float → float) (sfs : SFS) :
  wf_sfs sfs → ndim sfs = 2 →
  ("lncomb" ∉ module_globals ++ py_builtins)
  ∧ randomly_resampled_2D lncomb_impl np_exp sfs
    = Raise (NameError "lncomb").
Proof.
  intros (Hsh & Hdata & Hmask) Hr.
  split; [apply (proj1 (bool_decide_eq_false _)); reflexivity|].
  unfold ndim in Hr.
  destruct (shape sfs) as [|s1 [|s2 [|? ?]]] eqn:Hshape; try discriminate.
  apply Forall_cons in Hsh as [Hs1 Hsh]. apply Forall_cons in Hsh as [Hs2 _].
  unfold randomly_resampled_2D. rewrite Hshape.
  unfold np_zeros. rewrite bool_decide_eq_false_2 by lia.
  cbn [mbind result_bind].
  set (L := Z.to_nat (Z.of_nat s1 - 1 + (Z.of_nat s2 - 1) + 1)).
  assert (L = s1 + s2 - 1) as HL by (unfold L; lia).
  match goal with
  | |- context [for_each ?body ?xs (replicate L 0%Qc)] =>
      destruct (for_each_invariant
                  (λ st : list Qc, length st = L)
                  (λ p, (0 ≤ p.1 < Z.of_nat s1)%Z ∧ length p.2.1 ≤ s2)
                  body xs (replicate L 0%Qc))
        as (pooled & Hpool & Hlen)
  end.
  - intros st [ii [row mrow]] Hst [Hii Hrow]. simpl in Hii, Hrow.
    apply (for_each_invariant
             (λ st : list Qc, length st = L)
             (λ p, (0 ≤ p.1 < Z.of_nat s2)%Z)); [|
      |done].
    + intros st' [jj [num_snps [|]]] Hst' Hjj; simpl in Hjj.
      { by exists st'. }
      rewrite py_index_in_range by lia. cbn [mbind result_bind].
      eexists. split; [done|]. by rewrite length_alter.
    + eapply Forall_impl; [apply Forall_enumerate|].
      intros [jj x] [Hjj _]. simpl in *.
      rewrite length_zip_with in Hjj. lia.
  - eapply Forall_impl; [apply Forall_enumerate|].
    intros [ii [row mrow]] [Hii Hin]. simpl in *.
    rewrite length_zip_with in Hii.
    destruct (rows_length s1 s2 (data sfs)) as [Hn Hrows].
    split; [lia|].
    apply elem_of_zip_l in Hin.
    by eapply Forall_forall in Hrows.
  - by rewrite length_replicate.
  - rewrite Hpool. cbn [mbind result_bind].
    rewrite seqZ_cons by lia. cbn [for_each].
    destruct pooled as [|x pooled]; [simpl in Hlen; lia|].
    unfold enumerate. cbn [length]. rewrite seqZ_cons by lia.
    cbn [zip zip_with for_each]. unfold lncomb at 1.
    rewrite load_name_lncomb. reflexivity.
Qed.

Lemma wf_sfs_2x2 : wf_sfs sfs_2x2.
Proof. unfold wf_sfs. simpl. repeat split; repeat constructor. Qed.

Lemma randomly_resampled_2D_unbound_name_witness :
  wf_sfs sfs_2x2 ∧ ndim sfs_2x2 = 2
  ∧ randomly_resampled_2D (λ _ _, NaN) id sfs_2x2
    = Raise (NameError "lncomb").
Proof.
  split; [exact wf_sfs_2x2|]. split; [reflexivity|].
  exact (proj2 (randomly_resampled_2D_unbound_name (λ _ _, NaN) id sfs_2x2
                  wf_sfs_2x2 eq_refl)).
Defined.

(** ** C6: the resampled spectrum and the total site count *)

(** C6, at the spectrum [[1, 2], [3, 4]]: its unmasked entries add up to 10,
    and [randomly_resampled_2D] returns no spectrum whose entries could add
    up to anything; it raises [NameError]. *)
Theorem randomly_resampled_2D_no_total
    (lncomb_impl : Z → Z → float) (np_exp : float → float) :
  ma_sum sfs_2x2 = Qc_of_Z 10
  ∧ randomly_resampled_2D lncomb_impl np_exp sfs_2x2
    = Raise (NameError "lncomb")
  ∧ ∀ out : list float,
      randomly_resampled_2D lncomb_impl np_exp sfs_2x2 ≠ Ret out.
Proof.
  assert (randomly_resampled_2D lncomb_impl np_exp sfs_2x2
          = Raise (NameError "lncomb")) as H by reflexivity.
  split; [apply Qc_is_canon; reflexivity|]. split; [exact H|].
  intros out Hout. rewrite H in Hout. discriminate.
Qed.

(** ** C5: the scaling factor *)

Lemma compressed_fmap {A B} (f : A → B) (l : list A) (m : list bool) :
  compressed (f <$> l) m = f <$> compressed l m.
Proof.
  revert m. induction l as [|x l IH]; intros [|b m]; csimpl; [done..|].
  rewrite IH. by destruct b.
Qed.

Lemma qsum_scale (c : Qc) (l : list Qc) :
  qsum ((λ x, c * x)%Qc <$> l) = (c * qsum l)%Qc.
Proof.
  induction l as [|x l IH]; [simpl; ring|].
  rewrite fmap_cons, !qsum_cons, IH. ring.
Qed.

Lemma optimal_sfs_scaling_eq (model obs : SFS) :
  optimal_sfs_scaling model obs
  = (Fin (joint_sum_data model obs) / Fin (joint_sum_model model obs))%fl.
Proof. reflexivity. Qed.

(** C5 as the code has it.  For same-shaped spectra [optimal_sfs_scaling]
    returns [Σ data / Σ model], both sums over the entries unmasked in both;
    when [Σ model] is not zero that is the scalar [c] for which [c · model]
    has the total of the data over those entries. *)
Theorem optimal_sfs_scaling_ratio (model obs : SFS) :
  wf_sfs model → wf_sfs obs → shape model = shape obs →
  joint_sum_model model obs ≠ 0%Qc →
  let c := (joint_sum_data model obs / joint_sum_model model obs)%Qc in
  optimal_sfs_scaling model obs = Fin c
  ∧ qsum (compressed ((λ m, c * m)%Qc <$> data model) (joint_mask model obs))
    = joint_sum_data model obs.
Proof.
  intros _ _ _ Hnz c. split.
  - rewrite optimal_sfs_scaling_eq. by apply fdiv_Fin.
  - rewrite compressed_fmap, qsum_scale. unfold c.
    fold (joint_sum_model model obs). field. done.
Qed.

Lemma optimal_sfs_scaling_ratio_witness :
  optimal_sfs_scaling model_12 data_13 = Fin (frac 4 3)
  ∧ qsum (compressed ((λ m, frac 4 3 * m)%Qc <$> data model_12)
                     (joint_mask model_12 data_13))
    = Qc_of_Z 4.
Proof.
  assert (wf_sfs model_12) as Hm.
  { unfold wf_sfs. simpl. repeat split; repeat constructor. }
  assert (wf_sfs data_13) as Hd.
  { unfold wf_sfs. simpl. repeat split; repeat constructor. }
  assert (joint_sum_model model_12 data_13 ≠ 0%Qc) as Hnz.
  { intros H. apply (f_equal this) in H. vm_compute in H. discriminate H. }
  assert (joint_sum_data model_12 data_13 / joint_sum_model model_12 data_13
          = frac 4 3)%Qc as Hc by (apply Qc_is_canon; reflexivity).
  assert (joint_sum_data model_12 data_13 = Qc_of_Z 4) as Hs
    by (apply Qc_is_canon; reflexivity).
  pose proof (optimal_sfs_scaling_ratio model_12 data_13 Hm Hd eq_refl Hnz)
    as H.
  cbv zeta in H. rewrite Hc, Hs in H. exact H.
Defined.

(** C5 as stated fails: on model [[1, 2]] and data [[1, 3]] the value
    returned is [4/3], and [7/5] has a smaller sum of squared residuals. *)
Lemma optimal_sfs_scaling_not_least_squares :
  optimal_sfs_scaling model_12 data_13 = Fin (frac 4 3)
  ∧ ¬ is_least_squares_scaling model_12 data_13 (frac 4 3).
Proof.
  split.
  - vm_compute. reflexivity.
  - intros H. specialize (H (frac 7 5)).
    apply Qcle_not_lt in H. apply H. reflexivity.
Qed.

(** ** C2: pi and the ratio [n/(n-1)] *)

Lemma Ret_Fin_ext (q q' : Qc) : (q == q')%Q → Ret (Fin q) = Ret (Fin q').
Proof. intros H. by rewrite (Qc_is_canon _ _ H). Qed.

(** Between Python 2 integers the ratio is the floor: 1 from [n = 3] on. *)
Lemma py_idiv_n_pred (n : Z) : (3 ≤ n)%Z → py_idiv n (n - 1) = Ret 1%Z.
Proof.
  intros Hn. unfold py_idiv. rewrite bool_decide_eq_false_2 by lia.
  f_equal. symmetry. apply (Z.div_unique n (n - 1) 1 1); lia.
Qed.

(** C2, at the spectrum [[0, 1, 1, 0]] ([n = 3]): the formula with the exact
    ratio [3/2] gives [4/3]; [pi] computes [3/2] as the integer 1 and returns
    [8/9]. *)
Theorem pi_truncates_ratio :
  pi sfs_0110 = Ret (Fin (frac 8 9))
  ∧ pi_spec sfs_0110 = frac 4 3
  ∧ py_idiv 3 (3 - 1) = Ret 1%Z.
Proof.
  split; [vm_compute; apply Ret_Fin_ext; reflexivity|].
  split; [apply Qc_is_canon; reflexivity | reflexivity].
Qed.

(** ** C1: Fst and the ratios [(r-1)/r] and [Σ ns² / Σ ns] *)

(** Between Python 2 integers [(r-1)/r] is 0 for every rank [r >= 1]. *)
Lemma py_idiv_pred_r (r : Z) : (1 ≤ r)%Z → py_idiv (r - 1) r = Ret 0%Z.
Proof.
  intros Hr. unfold py_idiv. rewrite bool_decide_eq_false_2 by lia.
  f_equal. apply Z.div_small. lia.
Qed.

(** C1, at the 3 by 3 spectrum whose one site is fixed ancestral in the first
    population and fixed derived in the second: with [(r-1)/r = 1/2] the
    formula gives 1; [Fst] computes [(r-1)/r] as the integer 0 and returns
    [5/9]. *)
Theorem Fst_truncates_ratio :
  Fst sfs_3x3_fixed = Ret (Fin (frac 5 9))
  ∧ Fst_spec sfs_3x3_fixed = 1%Qc
  ∧ py_idiv (2 - 1) 2 = Ret 0%Z.
Proof.
  split; [vm_compute; apply Ret_Fin_ext; reflexivity|].
  split; [apply Qc_is_canon; reflexivity | reflexivity].
Qed.

(** * Further properties of the module *)

(** ** Tabulated integrands *)

Lemma zip_with_as_fmap {A B C} (f : A → B → C) (a : list A) (b : list B) :
  zip_with f a b = (λ p, f p.1 p.2) <$> zip a b.
Proof.
  revert b. induction a as [|x a IH]; intros [|y b]; csimpl; [done..|].
  by rewrite IH.
Qed.

Lemma trapz_dx_tab {A} (g : A → Qc) (l : list A) (d : list Qc) :
  trapz_dx (g <$> l) d
  = qsum (zip_with (λ dv ab, dv * (g ab.1 + g ab.2) / 2)%Qc d
                   (zip (from1 l) (upto_last l))).
Proof.
  unfold trapz_dx, vmul, vadd. rewrite from1_fmap, upto_last_fmap.
  rewrite zip_with_fmap_l, zip_with_fmap_r, fmap_zip_with_compose.
  by rewrite (zip_with_as_fmap _ (from1 l)), zip_with_fmap_r.
Qed.

Lemma qsum_zip_with_scale {A B} (c : Qc) (f : A → B → Qc)
    (a : list A) (b : list B) :
  qsum (zip_with (λ x y, c * f x y)%Qc a b) = (c * qsum (zip_with f a b))%Qc.
Proof.
  revert b. induction a as [|x a IH]; intros [|y b]; simpl; try ring.
  rewrite IH. ring.
Qed.

Lemma binom_term_weighted_sum (n : nat) (x p : Qc) :
  qsum ((λ ii, binom_term n ii x * p)%Qc <$> seq 0 (n + 1)) = p.
Proof.
  rewrite (qsum_map_ext _ (λ ii, p * binom_term n ii x)%Qc)
    by (intros; ring).
  rewrite qsum_map_scale, binom_term_sum. ring.
Qed.

Lemma vmul_binom_factor (n ii : nat) (xx : list Qc) (phi : list Qc) :
  vmul (binom_factor n ii xx) phi
  = (λ a, binom_term n ii a.1 * a.2)%Qc <$> zip xx phi.
Proof.
  unfold vmul, binom_factor. by rewrite zip_with_fmap_l, zip_with_as_fmap.
Qed.

Lemma vmul_fmap_r {P} (B : list Qc) (G : P → Qc) (phi : list P) :
  vmul B (G <$> phi) = (λ a, a.1 * G a.2)%Qc <$> zip B phi.
Proof. unfold vmul. by rewrite zip_with_fmap_r, zip_with_as_fmap. Qed.

Lemma trapz_dx_sum_family {A J} (G : J → A → Qc) (js : list J)
    (l : list A) (d : list Qc) :
  qsum ((λ j, trapz_dx (G j <$> l) d) <$> js)
  = trapz_dx ((λ a, qsum ((λ j, G j a) <$> js)) <$> l) d.
Proof.
  rewrite trapz_dx_tab.
  rewrite (qsum_map_ext _
    (λ j, qsum (zip_with (λ dv ab, dv * (G j ab.1 + G j ab.2) / 2)%Qc d
                         (zip (from1 l) (upto_last l)))))
    by (intros j _; apply trapz_dx_tab).
  rewrite (qsum_interchange (λ j dv ab, dv * (G j ab.1 + G j ab.2) / 2)%Qc).
  f_equal. apply zip_with_ext; [|done..]. intros dv ab.
  rewrite (qsum_map_ext _ (λ j, dv / 2 * G j ab.1 + dv / 2 * G j ab.2)%Qc)
    by (intros j _; unfold Qcdiv; ring).
  rewrite qsum_map_plus, !qsum_map_scale. unfold Qcdiv. ring.
Qed.

(** A sum over bins moves inside the weighted integral. *)
Lemma weighted_family {P J} (B : list Qc) (G : J → P → Qc) (js : list J)
    (phi : list P) (xx : list Qc) :
  qsum ((λ j, trapz (vmul B (G j <$> phi)) xx) <$> js)
  = trapz (vmul B ((λ p, qsum ((λ j, G j p) <$> js)) <$> phi)) xx.
Proof.
  unfold trapz.
  rewrite (qsum_map_ext _
    (λ j, trapz_dx ((λ a, a.1 * G j a.2)%Qc <$> zip B phi) (diff xx))).
  2:{ intros j _. by rewrite vmul_fmap_r. }
  rewrite (trapz_dx_sum_family (λ j a, a.1 * G j a.2)%Qc).
  rewrite vmul_fmap_r. f_equal.
  apply list_fmap_ext. intros _ a _. simpl. by rewrite qsum_map_scale.
Qed.

Lemma trapz_fmap_ext {P} (B : list Qc) (G H : P → Qc) (phi : list P)
    (xx : list Qc) :
  (∀ p, p ∈ phi → G p = H p) →
  trapz (vmul B (G <$> phi)) xx = trapz (vmul B (H <$> phi)) xx.
Proof.
  intros HG. do 2 f_equal. apply list_fmap_ext.
  intros i p Hp. apply HG. by eapply list_elem_of_lookup_2.
Qed.

Lemma trapz_dx_linear (a b : Qc) (u v d : list Qc) :
  length u = length v →
  trapz_dx (vadd (vscale a u) (vscale b v)) d
  = (a * trapz_dx u d + b * trapz_dx v d)%Qc.
Proof.
  intros Hlen. set (l := zip u v).
  assert (u = l.*1) as Hu by (unfold l; rewrite fst_zip; [done|lia]).
  assert (v = l.*2) as Hv by (unfold l; rewrite snd_zip; [done|lia]).
  assert (vadd (vscale a u) (vscale b v)
          = (λ p, a * p.1 + b * p.2)%Qc <$> l) as ->.
  { unfold vadd, vscale, l.
    by rewrite zip_with_fmap_l, zip_with_fmap_r, zip_with_as_fmap. }
  rewrite Hu at 1. rewrite Hv at 1. rewrite !trapz_dx_tab.
  rewrite <- !qsum_zip_with_scale, <- qsum_zip_with_plus.
  f_equal. apply zip_with_ext; [|done..]. intros dv ab.
  unfold Qcdiv. ring.
Qed.

Lemma vmul_vadd_vscale (a b : Qc) (w u v : list Qc) :
  vmul w (vadd (vscale a u) (vscale b v))
  = vadd (vscale a (vmul w u)) (vscale b (vmul w v)).
Proof.
  unfold vmul, vadd, vscale.
  revert u v. induction w as [|x w IH]; intros [|y u] [|z v]; csimpl;
    try done.
  rewrite IH. f_equal. ring.
Qed.

Lemma vmul_vscale_r (c : Qc) (w u : list Qc) :
  vmul w (vscale c u) = vscale c (vmul w u).
Proof.
  unfold vmul, vscale. rewrite zip_with_fmap_r, fmap_zip_with_compose.
  apply zip_with_ext; [|done..]. intros x y. ring.
Qed.

Lemma trapz_dx_vscale (c : Qc) (y d : list Qc) :
  trapz_dx (vscale c y) d = (c * trapz_dx y d)%Qc.
Proof.
  unfold vscale. rewrite <- (list_fmap_id y) at 2.
  rewrite !trapz_dx_tab, <- qsum_zip_with_scale.
  f_equal. apply zip_with_ext; [|done..]. intros dv ab.
  unfold Qcdiv, id. ring.
Qed.

Lemma trapz_vmul_vscale (c : Qc) (B y xx : list Qc) :
  trapz (vmul B (vscale c y)) xx = (c * trapz (vmul B y) xx)%Qc.
Proof. unfold trapz. by rewrite vmul_vscale_r, trapz_dx_vscale. Qed.

(** ** sfs_from_phi_1D *)

(** The binomial weights are a partition of unity at every grid point, so
    the bins of any density add up to its integral. *)
Lemma binom_trapz_sum (n : nat) (xx phi : list Qc) :
  length phi = length xx →
  qsum ((λ ii, trapz (vmul (binom_factor n ii xx) phi) xx) <$> seq 0 (n + 1))
  = trapz phi xx.
Proof.
  intros Hlen.
  set (l := zip xx phi).
  assert (xx = l.*1) as Hxx by (unfold l; rewrite fst_zip; [done|lia]).
  assert (phi = l.*2) as Hphi by (unfold l; rewrite snd_zip; [done|lia]).
  unfold trapz.
  rewrite (qsum_map_ext _
    (λ ii, qsum (zip_with
                   (λ dv ab, dv * (binom_term n ii ab.1.1 * ab.1.2
                                   + binom_term n ii ab.2.1 * ab.2.2) / 2)%Qc
                   (diff xx) (zip (from1 l) (upto_last l))))).
  2:{ intros ii _. rewrite vmul_binom_factor. fold l.
      apply (trapz_dx_tab (λ a, binom_term n ii a.1 * a.2)%Qc). }
  rewrite (qsum_interchange
    (λ ii dv ab, dv * (binom_term n ii ab.1.1 * ab.1.2
                       + binom_term n ii ab.2.1 * ab.2.2) / 2)%Qc).
  rewrite Hphi at 1. rewrite (trapz_dx_tab snd).
  f_equal. apply zip_with_ext; [|done..]. intros dv ab.
  rewrite (qsum_map_ext _
    (λ ii, dv / 2 * (binom_term n ii ab.1.1 * ab.1.2)
           + dv / 2 * (binom_term n ii ab.2.1 * ab.2.2))%Qc).
  2:{ intros ii _. unfold Qcdiv. ring. }
  rewrite qsum_map_plus, !qsum_map_scale, !binom_term_weighted_sum.
  unfold Qcdiv. ring.
Qed.

(** X1.  For every [n], every grid [xx] and every density [phi] tabulated
    on it, the entries of [sfs_from_phi_1D n xx phi] add up to the
    trapezoid-rule integral of [phi] over [xx]. *)
Theorem sfs_from_phi_1D_total (n : nat) (xx phi : list Qc) :
  length phi = length xx →
  qsum (sfs_from_phi_1D n xx phi) = trapz phi xx.
Proof.
  intros Hlen. rewrite sfs_from_phi_1D_entries. by apply binom_trapz_sum.
Qed.

(** X2.  [sfs_from_phi_1D] is linear in the density: the spectrum of
    [a*phi + b*psi] is [a] times the spectrum of [phi] plus [b] times the
    spectrum of [psi]. *)
Theorem sfs_from_phi_1D_linear (n : nat) (xx phi psi : list Qc) (a b : Qc) :
  length phi = length xx → length psi = length xx →
  sfs_from_phi_1D n xx (vadd (vscale a phi) (vscale b psi))
  = vadd (vscale a (sfs_from_phi_1D n xx phi))
         (vscale b (sfs_from_phi_1D n xx psi)).
Proof.
  intros Hphi Hpsi. rewrite !sfs_from_phi_1D_entries.
  unfold vadd at 2. unfold vscale at 3 4.
  rewrite <- !list_fmap_compose, zip_with_fmap_l, zip_with_fmap_r, zip_with_diag.
  apply list_fmap_ext. intros _ ii _. simpl.
  rewrite vmul_vadd_vscale. unfold trapz. apply trapz_dx_linear.
  unfold vmul. rewrite !length_zip_with. lia.
Qed.

Lemma qsum_nonneg (l : list Qc) : Forall (λ x, 0 ≤ x)%Qc l → (0 ≤ qsum l)%Qc.
Proof.
  induction 1 as [|x l Hx _ IH]; [done|].
  rewrite qsum_cons. by apply Qcplus_nonneg_nonneg.
Qed.

Lemma Forall_zip_with_nonneg (f : Qc → Qc → Qc) (a b : list Qc) :
  (∀ x y, 0 ≤ x → 0 ≤ y → 0 ≤ f x y)%Qc →
  Forall (λ x, 0 ≤ x)%Qc a → Forall (λ x, 0 ≤ x)%Qc b →
  Forall (λ x, 0 ≤ x)%Qc (zip_with f a b).
Proof.
  intros Hf Ha. revert b. induction Ha as [|x a Hx _ IH]; intros b Hb; [done|].
  destruct Hb as [|y b Hy Hb]; [done|]. simpl. constructor; auto.
Qed.

Lemma half_nonneg (v : Qc) : (0 ≤ v → 0 ≤ v / 2)%Qc.
Proof.
  intros Hv. unfold Qcdiv. apply Qcmult_nonneg_nonneg; [done|].
  apply Qclt_le_weak, Qcinv_pos. reflexivity.
Qed.

Lemma trapz_dx_nonneg (y d : list Qc) :
  Forall (λ x, 0 ≤ x)%Qc y → Forall (λ x, 0 ≤ x)%Qc d →
  (0 ≤ trapz_dx y d)%Qc.
Proof.
  intros Hy Hd. unfold trapz_dx. apply qsum_nonneg.
  apply Forall_fmap. eapply Forall_impl; [|intros v; apply half_nonneg].
  apply Forall_zip_with_nonneg; [apply Qcmult_nonneg_nonneg|done|].
  apply Forall_zip_with_nonneg; [apply Qcplus_nonneg_nonneg| |].
  - by apply Forall_drop.
  - by apply Forall_take.
Qed.

Lemma diff_cons_cons (x y : Qc) (l : list Qc) :
  diff (x :: y :: l) = (y - x)%Qc :: diff (y :: l).
Proof.
  unfold diff, vsub, from1, upto_last. simpl. by rewrite Nat.sub_0_r.
Qed.

Lemma diff_nonneg (xx : list Qc) :
  Sorted Qcle xx → Forall (λ x, 0 ≤ x)%Qc (diff xx).
Proof.
  induction 1 as [|x l Hl IH Hx]; [done|].
  destruct l as [|y l]; [done|].
  rewrite diff_cons_cons. constructor; [|done].
  apply HdRel_inv in Hx. unfold Qcminus. by apply Qcle_minus_iff in Hx.
Qed.

Lemma binom_term_nonneg (n ii : nat) (x : Qc) :
  (0 ≤ x → x ≤ 1 → 0 ≤ binom_term n ii x)%Qc.
Proof.
  intros H0 H1. unfold binom_term.
  repeat apply Qcmult_nonneg_nonneg.
  - unfold Qc_of_nat. apply (proj1 (Z2Qc_inj_le 0 (Z.of_nat (comb n ii)))). lia.
  - by apply Qcpower_pos.
  - apply Qcpower_pos. unfold Qcminus. by apply Qcle_minus_iff in H1.
Qed.

(** X3.  On an ascending grid within [[0, 1]], a density that is nowhere
    negative gives a spectrum with no negative entry. *)
Theorem sfs_from_phi_1D_nonneg (n : nat) (xx phi : list Qc) :
  length phi = length xx →
  Forall (λ x, 0 ≤ x ∧ x ≤ 1)%Qc xx → Sorted Qcle xx →
  Forall (λ p, 0 ≤ p)%Qc phi →
  Forall (λ s, 0 ≤ s)%Qc (sfs_from_phi_1D n xx phi).
Proof.
  intros _ Hxx Hsorted Hphi. rewrite sfs_from_phi_1D_entries.
  apply Forall_fmap, Forall_forall. intros ii _. simpl.
  apply trapz_dx_nonneg; [|by apply diff_nonneg].
  apply Forall_zip_with_nonneg; [apply Qcmult_nonneg_nonneg| |done].
  apply Forall_fmap. eapply Forall_impl; [exact Hxx|].
  intros x [H0 H1]. by apply binom_term_nonneg.
Qed.

Lemma diff_short (xx : list Qc) : length xx ≤ 1 → diff xx = [].
Proof.
  destruct xx as [|x [|y xx]]; simpl; [done..|lia].
Qed.

(** X4.  [sfs_from_phi_1D n xx phi] always has [n + 1] entries, and on a
    grid of fewer than two points, which has no interval to integrate over,
    every entry is 0. *)
Theorem sfs_from_phi_1D_degenerate_grid (n : nat) (xx phi : list Qc) :
  length phi = length xx →
  length (sfs_from_phi_1D n xx phi) = n + 1
  ∧ (length xx ≤ 1 → sfs_from_phi_1D n xx phi = replicate (n + 1) 0%Qc).
Proof.
  intros _. rewrite sfs_from_phi_1D_entries. split.
  - by rewrite length_fmap, length_seq.
  - intros Hxx. unfold trapz. rewrite diff_short by done.
    generalize 0 at 1. induction (n + 1) as [|m IH]; intros s; [done|].
    csimpl. by rewrite IH.
Qed.

(** ** The caches and the nested loops *)

Lemma factor_cache_prefix_None (n m ii k : nat) (xx : list Qc) :
  m ≠ n ∨ k ≤ ii →
  foldl (λ cache ii, <[(n, ii) := binom_factor n ii xx]> cache)
        (∅ : gmap (nat * nat) (list Qc)) (seq 0 k) !! (m, ii) = None.
Proof.
  induction k as [|k IH]; intros Hk; [apply lookup_empty|].
  rewrite seq_S, foldl_snoc. cbn [Nat.add].
  rewrite lookup_insert_ne; [apply IH; lia|].
  intros Heq. inversion Heq. lia.
Qed.

(** X5.  The cache built for sample size [n] holds exactly the keys
    [(n, 0)] to [(n, n)], each bound to its binomial factor: the lookups
    [factorx_cache[nx,ii]] of the sweeps never miss, and no other key is
    present. *)
Theorem factor_cache_keys (n m ii : nat) (xx : list Qc) :
  factor_cache n xx !! (m, ii)
  = if bool_decide (m = n ∧ ii ≤ n) then Some (binom_factor n ii xx) else None.
Proof.
  case_bool_decide as H.
  - destruct H as [-> Hii]. by apply factor_cache_lookup.
  - unfold factor_cache. apply (factor_cache_prefix_None n m ii (n + 1)). lia.
Qed.

Lemma factor_cache_total (n ii : nat) (xx : list Qc) :
  ii ∈ seq 0 (n + 1) → factor_cache n xx !!! (n, ii) = binom_factor n ii xx.
Proof.
  intros Hii%elem_of_seq. apply lookup_total_correct, factor_cache_lookup. lia.
Qed.

Lemma foldl_ext_in {A B} (f g : A → B → A) (a : A) (l : list B) :
  (∀ a x, x ∈ l → f a x = g a x) → foldl f a l = foldl g a l.
Proof.
  revert a. induction l as [|x l IH]; intros a H; simpl; [done|].
  rewrite H by set_solver. apply IH. intros a' y Hy. apply H. set_solver.
Qed.

Lemma foldl_pointwise {A K} (T : K → list A → list A) (t : K → nat → A → A) :
  (∀ k s i, T k s !! i = t k i <$> (s !! i)) →
  ∀ ks s i,
    foldl (λ s k, T k s) s ks !! i
    = (λ x, foldl (λ x k, t k i x) x ks) <$> (s !! i).
Proof.
  intros HT ks. induction ks as [|k ks IH]; intros s i; simpl.
  { by destruct (s !! i). }
  rewrite IH, HT. by destruct (s !! i).
Qed.

Lemma alter_loop_lookup {A} (g : nat → A → A) (s : list A) (k i : nat) :
  foldl (λ s i, alter (g i) i s) s (seq 0 k) !! i
  = (if i <? k then g i else id) <$> (s !! i).
Proof.
  induction k as [|k IH].
  { simpl. by destruct (s !! i). }
  rewrite seq_S, foldl_app. simpl.
  destruct (decide (i = k)) as [->|Hne].
  - rewrite list_lookup_alter, IH.
    rewrite Nat.ltb_irrefl, (proj2 (Nat.ltb_lt k (S k))) by lia.
    rewrite decide_True by done. by destruct (s !! k).
  - rewrite list_lookup_alter_ne, IH by done.
    destruct (Nat.ltb_spec i k), (Nat.ltb_spec i (S k)); try lia; done.
Qed.

Lemma fill_loop_2D {A} (F : nat → nat → A) (d : A) (a b : nat) :
  foldl (λ s j, foldl (λ s i, alter (<[j := F i j]>) i s) s (seq 0 a))
        (replicate a (replicate b d)) (seq 0 b)
  = (λ i, F i <$> seq 0 b) <$> seq 0 a.
Proof.
  apply list_eq. intros i.
  rewrite (foldl_pointwise
             (λ j s, foldl (λ s i, alter (<[j := F i j]>) i s) s (seq 0 a))
             (λ j i, if i <? a then <[j := F i j]> else id)).
  2:{ intros j s i'. apply (alter_loop_lookup (λ i, <[j := F i j]>)). }
  rewrite list_lookup_fmap.
  destruct (Nat.ltb_spec i a) as [Hi|Hi].
  - rewrite lookup_replicate_2, lookup_seq_lt by done. simpl.
    f_equal. apply fill_loop.
  - rewrite (proj1 (lookup_replicate_None _ _ _)), lookup_seq_ge by lia. done.
Qed.

Lemma fill_loop_3D {A} (F : nat → nat → nat → A) (d : A) (a b c : nat) :
  foldl (λ s k,
    foldl (λ s j,
      foldl (λ s i, alter (alter (<[k := F i j k]>) j) i s) s (seq 0 a))
      s (seq 0 b))
    (replicate a (replicate b (replicate c d))) (seq 0 c)
  = (λ i, (λ j, F i j <$> seq 0 c) <$> seq 0 b) <$> seq 0 a.
Proof.
  apply list_eq. intros i.
  rewrite (foldl_pointwise
    (λ k s, foldl (λ s j,
              foldl (λ s i, alter (alter (<[k := F i j k]>) j) i s) s (seq 0 a))
              s (seq 0 b))
    (λ k i x, foldl (λ x j,
                (if i <? a then alter (<[k := F i j k]>) j else id) x)
                x (seq 0 b))).
  2:{ intros k s i'. cbv beta.
      apply (foldl_pointwise
        (λ j s, foldl (λ s i, alter (alter (<[k := F i j k]>) j) i s) s (seq 0 a))
        (λ j i, if i <? a then alter (<[k := F i j k]>) j else id)).
      intros j s' i''.
      apply (alter_loop_lookup (λ i, alter (<[k := F i j k]>) j)). }
  rewrite list_lookup_fmap.
  destruct (Nat.ltb_spec i a) as [Hi|Hi].
  - rewrite lookup_replicate_2, lookup_seq_lt by done. simpl.
    f_equal. apply (fill_loop_2D (F i)).
  - rewrite (proj1 (lookup_replicate_None _ _ _)), lookup_seq_ge by lia. done.
Qed.

(** ** sfs_from_phi_2D *)

Lemma sfs_from_phi_2D_entries (nx ny : nat) (xx yy : list Qc)
    (phi : list (list Qc)) :
  sfs_from_phi_2D nx ny xx yy phi
  = (λ ii, bin_integral_2D nx ny xx yy phi ii <$> seq 0 (ny + 1))
      <$> seq 0 (nx + 1).
Proof.
  unfold sfs_from_phi_2D. cbv zeta.
  rewrite <- (fill_loop_2D (bin_integral_2D nx ny xx yy phi) 0%Qc).
  apply foldl_ext; intros s jj.
  apply foldl_ext_in; intros s' ii Hii.
  by rewrite factor_cache_total.
Qed.

(** X6.  [sfs_from_phi_2D] returns [nx + 1] rows of [ny + 1] entries, and
    the entry [[ii, jj]] is the iterated trapezoid integral of the two
    binomial factors times [phi], over [yy] and then over [xx]. *)
Theorem sfs_from_phi_2D_bins (nx ny : nat) (xx yy : list Qc)
    (phi : list (list Qc)) :
  conformable_2D xx yy phi →
  length (sfs_from_phi_2D nx ny xx yy phi) = nx + 1
  ∧ Forall (λ row, length row = ny + 1) (sfs_from_phi_2D nx ny xx yy phi)
  ∧ ∀ ii jj, ii ≤ nx → jj ≤ ny →
      get2 (sfs_from_phi_2D nx ny xx yy phi) ii jj
      = Some (bin_integral_2D nx ny xx yy phi ii jj).
Proof.
  intros _. rewrite sfs_from_phi_2D_entries. split; [|split].
  - by rewrite length_fmap, length_seq.
  - apply Forall_fmap, Forall_forall. intros ii _. simpl.
    by rewrite length_fmap, length_seq.
  - intros ii jj Hii Hjj. unfold get2.
    rewrite list_lookup_fmap, lookup_seq_lt by lia. simpl.
    rewrite list_lookup_fmap, lookup_seq_lt by lia. done.
Qed.

Lemma bin_integral_2D_row_sum (nx ny : nat) (xx yy : list Qc)
    (phi : list (list Qc)) (ii : nat) :
  Forall (λ line, length line = length yy) phi →
  qsum (bin_integral_2D nx ny xx yy phi ii <$> seq 0 (ny + 1))
  = trapz (vmul (binom_factor nx ii xx) ((λ line, trapz line yy) <$> phi)) xx.
Proof.
  intros Hlines. unfold bin_integral_2D.
  rewrite (weighted_family _
    (λ jj line, trapz (vmul (binom_factor ny jj yy) line) yy)).
  apply trapz_fmap_ext. intros line Hline.
  apply binom_trapz_sum. by eapply Forall_forall in Hlines.
Qed.

(** X7.  Summing the 2D spectrum over its second axis gives the 1D
    spectrum of the density integrated over [yy]. *)
Theorem sfs_from_phi_2D_marginal (nx ny : nat) (xx yy : list Qc)
    (phi : list (list Qc)) :
  conformable_2D xx yy phi →
  qsum <$> sfs_from_phi_2D nx ny xx yy phi
  = sfs_from_phi_1D nx xx ((λ line, trapz line yy) <$> phi).
Proof.
  intros [_ Hlines].
  rewrite sfs_from_phi_2D_entries, sfs_from_phi_1D_entries.
  rewrite <- list_fmap_compose.
  apply list_fmap_ext. intros _ ii _. unfold compose.
  by apply bin_integral_2D_row_sum.
Qed.

Lemma bin_integral_2D_sum (nx ny : nat) (xx yy : list Qc)
    (phi : list (list Qc)) :
  conformable_2D xx yy phi →
  qsum ((λ ii, qsum (bin_integral_2D nx ny xx yy phi ii <$> seq 0 (ny + 1)))
          <$> seq 0 (nx + 1))
  = trapz ((λ line, trapz line yy) <$> phi) xx.
Proof.
  intros [Hphi Hlines]. unfold bin_integral_2D.
  rewrite (qsum_map_ext _
    (λ ii, trapz (vmul (binom_factor nx ii xx)
                       ((λ line, trapz line yy) <$> phi)) xx)).
  2:{ intros ii _.
      rewrite (weighted_family _
        (λ jj line, trapz (vmul (binom_factor ny jj yy) line) yy)).
      apply trapz_fmap_ext. intros line Hline.
      apply binom_trapz_sum. by eapply Forall_forall in Hlines. }
  apply binom_trapz_sum. by rewrite length_fmap.
Qed.

(** X8.  The entries of the 2D spectrum add up to the iterated trapezoid
    integral of [phi] over [yy] and [xx]. *)
Theorem sfs_from_phi_2D_total (nx ny : nat) (xx yy : list Qc)
    (phi : list (list Qc)) :
  conformable_2D xx yy phi →
  qsum2 (sfs_from_phi_2D nx ny xx yy phi)
  = trapz ((λ line, trapz line yy) <$> phi) xx.
Proof.
  intros Hc. rewrite sfs_from_phi_2D_entries. unfold qsum2.
  rewrite <- list_fmap_compose. unfold compose.
  exact (bin_integral_2D_sum nx ny xx yy phi Hc).
Qed.

Lemma bin_integral_2D_outer (nx ny : nat) (xx yy f g : list Qc) (ii jj : nat) :
  bin_integral_2D nx ny xx yy (outer f g) ii jj
  = (trapz (vmul (binom_factor nx ii xx) f) xx
     * trapz (vmul (binom_factor ny jj yy) g) yy)%Qc.
Proof.
  unfold bin_integral_2D, outer. rewrite <- list_fmap_compose.
  set (sy := trapz (vmul (binom_factor ny jj yy) g) yy).
  rewrite (list_fmap_ext _ (λ fx, sy * fx)%Qc f).
  2:{ intros _ fx _. unfold compose, trapz.
      by rewrite vmul_vscale_r, trapz_dx_vscale, Qcmult_comm. }
  fold (vscale sy f). unfold trapz.
  rewrite vmul_vscale_r, trapz_dx_vscale. ring.
Qed.

(** X9.  For a separable density [phi[x][y] = f[x] * g[y]] the 2D spectrum
    is the outer product of the 1D spectra of [f] and of [g]. *)
Theorem sfs_from_phi_2D_separable (nx ny : nat) (xx yy f g : list Qc) :
  length f = length xx → length g = length yy →
  sfs_from_phi_2D nx ny xx yy (outer f g)
  = outer (sfs_from_phi_1D nx xx f) (sfs_from_phi_1D ny yy g).
Proof.
  intros _ _. rewrite sfs_from_phi_2D_entries, !sfs_from_phi_1D_entries.
  unfold outer at 2. unfold vscale. rewrite <- !list_fmap_compose.
  apply list_fmap_ext. intros _ ii _. unfold compose.
  rewrite <- list_fmap_compose.
  apply list_fmap_ext. intros _ jj _. unfold compose.
  apply bin_integral_2D_outer.
Qed.

(** ** sfs_from_phi_3D *)

Lemma sfs_from_phi_3D_entries (nx ny nz : nat) (xx yy zz : list Qc)
    (phi : list (list (list Qc))) :
  sfs_from_phi_3D nx ny nz xx yy zz phi
  = (λ ii, (λ jj, bin_integral_3D nx ny nz xx yy zz phi ii jj
                    <$> seq 0 (nz + 1))
             <$> seq 0 (ny + 1))
      <$> seq 0 (nx + 1).
Proof.
  unfold sfs_from_phi_3D. cbv zeta.
  rewrite <- (fill_loop_3D (bin_integral_3D nx ny nz xx yy zz phi) 0%Qc).
  apply foldl_ext; intros s kk.
  apply foldl_ext_in; intros s' jj Hjj.
  apply foldl_ext_in; intros s'' ii Hii.
  rewrite !factor_cache_total by done. unfold set3. do 3 f_equal.
  rewrite half_step_sum. unfold bin_integral_3D, trapz, trapz_dx.
  by rewrite <- !list_fmap_compose.
Qed.

(** X10.  [sfs_from_phi_3D] returns an array of shape
    [(nx+1, ny+1, nz+1)] whose entry [[ii, jj, kk]] is the iterated trapezoid
    integral of the three binomial factors times [phi], over [zz], [yy] and
    [xx]. *)
Theorem sfs_from_phi_3D_bins (nx ny nz : nat) (xx yy zz : list Qc)
    (phi : list (list (list Qc))) :
  conformable_3D xx yy zz phi →
  length (sfs_from_phi_3D nx ny nz xx yy zz phi) = nx + 1
  ∧ Forall (λ plane, length plane = ny + 1
                     ∧ Forall (λ row : list Qc, length row = nz + 1) plane)
           (sfs_from_phi_3D nx ny nz xx yy zz phi)
  ∧ ∀ ii jj kk, ii ≤ nx → jj ≤ ny → kk ≤ nz →
      get3 (sfs_from_phi_3D nx ny nz xx yy zz phi) ii jj kk
      = Some (bin_integral_3D nx ny nz xx yy zz phi ii jj kk).
Proof.
  intros _. rewrite sfs_from_phi_3D_entries. split; [|split].
  - by rewrite length_fmap, length_seq.
  - apply Forall_fmap, Forall_forall. intros ii _. simpl. split.
    + by rewrite length_fmap, length_seq.
    + apply Forall_fmap, Forall_forall. intros jj _. simpl.
      by rewrite length_fmap, length_seq.
  - intros ii jj kk Hii Hjj Hkk. unfold get3.
    rewrite list_lookup_fmap, lookup_seq_lt by lia. simpl.
    rewrite list_lookup_fmap, lookup_seq_lt by lia. simpl.
    rewrite list_lookup_fmap, lookup_seq_lt by lia. done.
Qed.

Lemma bin_integral_3D_row_sum (nx ny nz : nat) (xx yy zz : list Qc)
    (phi : list (list (list Qc))) (ii jj : nat) :
  Forall (Forall (λ line : list Qc, length line = length zz)) phi →
  qsum (bin_integral_3D nx ny nz xx yy zz phi ii jj <$> seq 0 (nz + 1))
  = bin_integral_2D nx ny xx yy
      ((λ plane : list (list Qc), (λ line, trapz line zz) <$> plane)
         <$> phi) ii jj.
Proof.
  intros Hlines. unfold bin_integral_3D, bin_integral_2D.
  rewrite (weighted_family _
    (λ kk plane,
       trapz (vmul (binom_factor ny jj yy)
                ((λ line, trapz (vmul (binom_factor nz kk zz) line) zz)
                   <$> plane)) yy)).
  rewrite <- list_fmap_compose.
  apply trapz_fmap_ext. intros plane Hplane. unfold compose.
  eapply Forall_forall in Hlines; [|done].
  rewrite (weighted_family _
    (λ kk line, trapz (vmul (binom_factor nz kk zz) line) zz)).
  apply trapz_fmap_ext. intros line Hline.
  apply binom_trapz_sum. by eapply Forall_forall in Hlines.
Qed.

(** X11.  Summing the 3D spectrum over its last axis gives the 2D spectrum
    that [sfs_from_phi_2D] computes for the density integrated over [zz]. *)
Theorem sfs_from_phi_3D_marginal (nx ny nz : nat) (xx yy zz : list Qc)
    (phi : list (list (list Qc))) :
  conformable_3D xx yy zz phi →
  (λ plane : list (list Qc), qsum <$> plane)
    <$> sfs_from_phi_3D nx ny nz xx yy zz phi
  = sfs_from_phi_2D nx ny xx yy
      ((λ plane : list (list Qc), (λ line, trapz line zz) <$> plane)
         <$> phi).
Proof.
  intros (_ & _ & _ & _ & Hplanes).
  assert (Forall (Forall (λ line : list Qc, length line = length zz)) phi)
    as Hlines.
  { eapply Forall_impl; [exact Hplanes|]. by intros plane [_ ?]. }
  rewrite sfs_from_phi_3D_entries, sfs_from_phi_2D_entries.
  rewrite <- list_fmap_compose.
  apply list_fmap_ext. intros _ ii _. unfold compose.
  rewrite <- list_fmap_compose.
  apply list_fmap_ext. intros _ jj _. unfold compose.
  by apply bin_integral_3D_row_sum.
Qed.

Lemma bin_integral_3D_sum (nx ny nz : nat) (xx yy zz : list Qc)
    (phi : list (list (list Qc))) :
  conformable_3D xx yy zz phi →
  qsum ((λ ii,
     qsum ((λ jj,
        qsum (bin_integral_3D nx ny nz xx yy zz phi ii jj <$> seq 0 (nz + 1)))
             <$> seq 0 (ny + 1)))
          <$> seq 0 (nx + 1))
  = trapz ((λ plane, trapz ((λ line, trapz line zz) <$> plane) yy) <$> phi) xx.
Proof.
  intros (_ & _ & _ & Hphi & Hplanes). unfold bin_integral_3D.
  rewrite (qsum_map_ext _
    (λ ii, trapz (vmul (binom_factor nx ii xx)
             ((λ plane, trapz ((λ line, trapz line zz) <$> plane) yy) <$> phi))
             xx)).
  2:{ intros ii _.
      rewrite (qsum_map_ext _
        (λ jj, trapz (vmul (binom_factor nx ii xx)
                 ((λ plane,
                     trapz (vmul (binom_factor ny jj yy)
                              ((λ line, trapz line zz) <$> plane)) yy)
                    <$> phi)) xx)).
      2:{ intros jj _.
          rewrite (weighted_family _
            (λ kk plane,
               trapz (vmul (binom_factor ny jj yy)
                        ((λ line, trapz (vmul (binom_factor nz kk zz) line) zz)
                           <$> plane)) yy)).
          apply trapz_fmap_ext. intros plane Hplane.
          eapply Forall_forall in Hplanes as [Hplane_len Hlines]; [|done].
          rewrite (weighted_family _
            (λ kk line, trapz (vmul (binom_factor nz kk zz) line) zz)).
          apply trapz_fmap_ext. intros line Hline.
          apply binom_trapz_sum. by eapply Forall_forall in Hlines. }
      rewrite (weighted_family _
        (λ jj plane,
           trapz (vmul (binom_factor ny jj yy)
                    ((λ line, trapz line zz) <$> plane)) yy)).
      apply trapz_fmap_ext. intros plane Hplane.
      eapply Forall_forall in Hplanes as [Hplane_len Hlines]; [|done].
      apply binom_trapz_sum. by rewrite length_fmap. }
  apply binom_trapz_sum. by rewrite length_fmap.
Qed.

(** X12.  The entries of the 3D spectrum add up to the iterated trapezoid
    integral of [phi] over [zz], [yy] and [xx]. *)
Theorem sfs_from_phi_3D_total (nx ny nz : nat) (xx yy zz : list Qc)
    (phi : list (list (list Qc))) :
  conformable_3D xx yy zz phi →
  qsum3 (sfs_from_phi_3D nx ny nz xx yy zz phi)
  = trapz ((λ plane, trapz ((λ line, trapz line zz) <$> plane) yy) <$> phi) xx.
Proof.
  intros Hc. rewrite sfs_from_phi_3D_entries. unfold qsum3, qsum2.
  rewrite <- list_fmap_compose.
  rewrite <- (bin_integral_3D_sum nx ny nz) by done.
  apply qsum_map_ext. intros ii _. unfold compose.
  by rewrite <- list_fmap_compose.
Qed.

Lemma bin_integral_3D_outer (nx ny nz : nat) (xx yy zz f g h : list Qc)
    (ii jj kk : nat) :
  bin_integral_3D nx ny nz xx yy zz (outer3 f g h) ii jj kk
  = (trapz (vmul (binom_factor nx ii xx) f) xx
     * trapz (vmul (binom_factor ny jj yy) g) yy
     * trapz (vmul (binom_factor nz kk zz) h) zz)%Qc.
Proof.
  unfold bin_integral_3D, outer3. rewrite <- list_fmap_compose.
  set (sy := trapz (vmul (binom_factor ny jj yy) g) yy).
  set (sz := trapz (vmul (binom_factor nz kk zz) h) zz).
  rewrite (list_fmap_ext _ (λ fx, (sy * sz) * fx)%Qc f).
  2:{ intros _ fx _. unfold compose. rewrite <- list_fmap_compose.
      rewrite (list_fmap_ext _ (λ gy, (fx * sz) * gy)%Qc g).
      2:{ intros _ gy _. unfold compose. rewrite trapz_vmul_vscale.
          fold sz. ring. }
      fold (vscale (fx * sz) g). rewrite trapz_vmul_vscale. fold sy. ring. }
  fold (vscale (sy * sz) f). rewrite trapz_vmul_vscale. ring.
Qed.

(** X13.  For a separable density [phi[x][y][z] = f[x] * g[y] * h[z]] the
    3D spectrum is the outer product of the three 1D spectra. *)
Theorem sfs_from_phi_3D_separable (nx ny nz : nat)
    (xx yy zz f g h : list Qc) :
  length f = length xx → length g = length yy → length h = length zz →
  sfs_from_phi_3D nx ny nz xx yy zz (outer3 f g h)
  = outer3 (sfs_from_phi_1D nx xx f) (sfs_from_phi_1D ny yy g)
           (sfs_from_phi_1D nz zz h).
Proof.
  intros _ _ _. rewrite sfs_from_phi_3D_entries, !sfs_from_phi_1D_entries.
  unfold outer3 at 2. unfold vscale. rewrite <- !list_fmap_compose.
  apply list_fmap_ext. intros _ ii _. unfold compose.
  rewrite <- list_fmap_compose.
  apply list_fmap_ext. intros _ jj _. unfold compose.
  rewrite <- list_fmap_compose.
  apply list_fmap_ext. intros _ kk _. unfold compose.
  apply bin_integral_3D_outer.
Qed.

(** ** optimal_sfs_scaling and optimally_scaled_sfs *)

Lemma joint_mask_comm (a b : SFS) : joint_mask a b = joint_mask b a.
Proof.
  unfold joint_mask. generalize (mask a) (mask b).
  induction l as [|x l IH]; intros [|y k]; simpl; try done.
  by rewrite IH, orb_comm.
Qed.

Lemma optimal_sfs_scaling_Fin (model obs : SFS) :
  joint_sum_model model obs ≠ 0%Qc →
  optimal_sfs_scaling model obs
  = Fin (joint_sum_data model obs / joint_sum_model model obs).
Proof. intros Hnz. rewrite optimal_sfs_scaling_eq. by apply fdiv_Fin. Qed.

Lemma optimally_scaled_sfs_Fin (model obs : SFS) :
  joint_sum_model model obs ≠ 0%Qc →
  fdata (optimally_scaled_sfs model obs)
  = Fin <$> vscale (joint_sum_data model obs / joint_sum_model model obs)
                   (data model).
Proof.
  intros Hnz. unfold optimally_scaled_sfs, vscale. cbn [fdata].
  rewrite optimal_sfs_scaling_Fin by done.
  by rewrite <- list_fmap_compose.
Qed.

Lemma joint_sum_model_scaled (k : Qc) (model obs : SFS) :
  joint_sum_model (scaled k model) obs = (k * joint_sum_model model obs)%Qc.
Proof.
  unfold joint_sum_model, joint_mask, scaled, vscale. cbn [data mask].
  by rewrite compressed_fmap, qsum_scale.
Qed.

Lemma joint_sum_data_scaled (k : Qc) (model obs : SFS) :
  joint_sum_data (scaled k model) obs = joint_sum_data model obs.
Proof. reflexivity. Qed.

Lemma fmap_Fin_inj (l k : list Qc) : Fin <$> l = Fin <$> k → l = k.
Proof.
  revert k. induction l as [|x l IH]; intros [|y k] H; simplify_eq/=; [done|].
  f_equal. by apply IH.
Qed.

(** X14.  Exchanging model and data inverts the scaling factor, when
    neither sum over the jointly unmasked entries is zero. *)
Theorem optimal_sfs_scaling_reciprocal (model obs : SFS) :
  wf_sfs model → wf_sfs obs → shape model = shape obs →
  joint_sum_model model obs ≠ 0%Qc → joint_sum_data model obs ≠ 0%Qc →
  optimal_sfs_scaling obs model = (1 / optimal_sfs_scaling model obs)%fl.
Proof.
  intros _ _ _ Hm Hd.
  assert (joint_sum_model obs model = joint_sum_data model obs) as Hswap1
    by (unfold joint_sum_model, joint_sum_data; by rewrite joint_mask_comm).
  assert (joint_sum_data obs model = joint_sum_model model obs) as Hswap2
    by (unfold joint_sum_model, joint_sum_data; by rewrite joint_mask_comm).
  rewrite (optimal_sfs_scaling_Fin obs model) by (by rewrite Hswap1).
  rewrite (optimal_sfs_scaling_Fin model obs) by done.
  rewrite Hswap1, Hswap2, fdiv_Fin.
  - f_equal. field. done.
  - unfold Qcdiv. intros H. apply Qcmult_integral in H as [H|H]; [done|].
    pose proof (Qcmult_inv_r _ Hm) as Hinv. rewrite H, Qcmult_0_r in Hinv.
    discriminate Hinv.
Qed.

(** X15.  [optimally_scaled_sfs] keeps the shape and the mask of the
    model, and over the entries unmasked in both spectra the scaled model
    has the total of the data. *)
Theorem optimally_scaled_sfs_total (model obs : SFS) :
  wf_sfs model → wf_sfs obs → shape model = shape obs →
  joint_sum_model model obs ≠ 0%Qc →
  fshape (optimally_scaled_sfs model obs) = shape model
  ∧ fmask (optimally_scaled_sfs model obs) = mask model
  ∧ fsum (compressed (fdata (optimally_scaled_sfs model obs))
                     (joint_mask model obs))
    = Fin (joint_sum_data model obs).
Proof.
  intros _ _ _ Hnz. split; [done|]. split; [done|].
  rewrite optimally_scaled_sfs_Fin by done.
  rewrite compressed_fmap, fsum_Fin. f_equal.
  unfold vscale. rewrite compressed_fmap, qsum_scale.
  fold (joint_sum_model model obs). field. done.
Qed.

(** X16.  The scaled model does not depend on the normalisation of the
    model: when the model's sum over the entries unmasked in both spectra
    is not zero, multiplying the model by a non-zero constant leaves the
    shape, the mask and the unmasked entries of [optimally_scaled_sfs]
    unchanged. *)
Theorem optimally_scaled_sfs_scale_invariant (k : Qc) (model obs : SFS) :
  wf_sfs model → wf_sfs obs → shape model = shape obs →
  joint_sum_model model obs ≠ 0%Qc → k ≠ 0%Qc →
  fshape (optimally_scaled_sfs (scaled k model) obs)
  = fshape (optimally_scaled_sfs model obs)
  ∧ fmask (optimally_scaled_sfs (scaled k model) obs)
    = fmask (optimally_scaled_sfs model obs)
  ∧ unmasked (optimally_scaled_sfs (scaled k model) obs)
    = unmasked (optimally_scaled_sfs model obs).
Proof.
  intros _ _ _ Hnz Hk. split; [done|]. split; [done|].
  unfold unmasked. f_equal.
  assert (joint_sum_model (scaled k model) obs ≠ 0%Qc) as Hnz'.
  { rewrite joint_sum_model_scaled. intros H.
    by apply Qcmult_integral in H as [H|H]. }
  rewrite !optimally_scaled_sfs_Fin by done. f_equal.
  rewrite joint_sum_model_scaled, joint_sum_data_scaled.
  unfold scaled, vscale. cbn [data]. rewrite <- list_fmap_compose.
  apply list_fmap_ext. intros _ x _. unfold compose. field. done.
Qed.

(** X17.  A model that has been optimally scaled needs no further
    scaling: its scaling factor against the same data is 1. *)
Theorem optimally_scaled_sfs_idempotent (model obs fitted : SFS) :
  wf_sfs model → wf_sfs obs → shape model = shape obs →
  joint_sum_model model obs ≠ 0%Qc → joint_sum_data model obs ≠ 0%Qc →
  shape fitted = shape model → mask fitted = mask model →
  Fin <$> data fitted = fdata (optimally_scaled_sfs model obs) →
  optimal_sfs_scaling fitted obs = Fin 1.
Proof.
  intros _ _ _ Hm Hd Hshape Hmask Hdata.
  rewrite optimally_scaled_sfs_Fin in Hdata by done.
  apply fmap_Fin_inj in Hdata.
  assert (joint_sum_model fitted obs = joint_sum_data model obs) as Hfit.
  { unfold joint_sum_model at 1. unfold joint_mask. rewrite Hmask, Hdata.
    unfold vscale. rewrite compressed_fmap, qsum_scale.
    fold (joint_mask model obs). fold (joint_sum_model model obs).
    field. done. }
  assert (joint_sum_data fitted obs = joint_sum_data model obs) as Hfit'.
  { unfold joint_sum_data, joint_mask. by rewrite Hmask. }
  rewrite optimal_sfs_scaling_Fin by (by rewrite Hfit).
  rewrite Hfit, Hfit'. f_equal. field. done.
Qed.

(** ** Fst *)

Lemma fmul_NaN_r (x : float) : fmul x NaN = NaN.
Proof. by destruct x. Qed.

Lemma fsub_NaN_r (x : float) : fsub x NaN = NaN.
Proof. by destruct x. Qed.

(** Dividing by zero never gives a finite value, and zero times what it
    gives is nan. *)
Lemma fmul_zero_fdiv_zero (x : float) (q : Qc) :
  q = 0%Qc → fmul (Fin 0) (fdiv x (Fin q)) = NaN.
Proof.
  intros ->. destruct x as [a|s|]; simpl; [|done..].
  by destruct (is_zero a).
Qed.

Lemma fsum_NaN (k : nat) : fsum (replicate (S k) NaN) = NaN.
Proof.
  unfold fsum. simpl. generalize k. clear k.
  induction k as [|k IH]; [done|]. done.
Qed.

Lemma compressed_replicate {A} (x : A) (n : nat) (m : list bool) :
  length m = n → false ∈ m →
  ∃ k, compressed (replicate n x) m = replicate (S k) x.
Proof.
  revert n. induction m as [|b m IH]; intros n Hlen Hin.
  { by apply elem_of_nil in Hin. }
  destruct n as [|n]; [done|]. simpl in Hlen. simpl.
  destruct b.
  - apply IH; [lia|]. by apply elem_of_cons in Hin as [?|?].
  - destruct (decide (false ∈ m)) as [Hm|Hm].
    + destruct (IH n) as [k Hk]; [lia|done|]. exists (S k). by rewrite Hk.
    + exists 0. f_equal.
      assert (∀ l (j : nat), length l = j → false ∉ l →
                compressed (replicate j x) l = []) as Hnone.
      { clear. induction l as [|c l IHl]; intros [|j] Hl Hc; try done.
        destruct c; [|set_solver]. simpl. apply IHl; [simpl in Hl; lia|].
        set_solver. }
      apply Hnone; [lia|done].
Qed.

Lemma shape_size_single (m : nat) : shape_size [m] = m.
Proof. unfold shape_size. simpl. lia. Qed.

Lemma Qc_of_Z_nonzero (z : Z) : z ≠ 0%Z → Qc_of_Z z ≠ 0%Qc.
Proof. intros Hz H. apply Hz, Z2Qc_inj. by rewrite H, Z2Qc_inj_0. Qed.

(** X18.  On a spectrum of rank at least 1, [Fst] raises no exception:
    its only Python division, [(r-1)/r], has a non-zero divisor, and numpy's
    divisions yield infinities or nans. *)
Theorem Fst_no_exception (sfs : SFS) :
  1 ≤ ndim sfs → ∃ v, Fst sfs = Ret v.
Proof.
  intros Hr. unfold Fst. rewrite py_idiv_pred_r by lia. by eexists.
Qed.

(** X19.  On a one-population spectrum with an unmasked entry [Fst]
    returns nan: with [r = 1] the variance [s2] is divided by
    [(r-1)*nbar = 0]. *)
Theorem Fst_single_population (sfs : SFS) (m : nat) :
  wf_sfs sfs → shape sfs = [m] → false ∈ mask sfs →
  Fst sfs = Ret NaN.
Proof.
  intros (Hsh & Hdata & Hmask) Hshape Hunmasked.
  rewrite Hshape, shape_size_single in Hdata, Hmask.
  unfold Fst, ndim. rewrite Hshape. cbn [length fmap list_fmap sumZ foldr].
  change (py_idiv (Z.of_nat 1 - 1) (Z.of_nat 1)) with (Ret 0%Z : result Z).
  cbn [mbind result_bind].
  set (ns := [(Z.of_nat m - 1)%Z]).
  set (nbar := fdiv (of_Z _) (of_Z (Z.of_nat 1))).
  set (ptw := _ <$> indices [m]).
  set (pbar := _ <$> ptw).
  set (s2 := zip_with _ ptw pbar).
  assert (length ptw = m) as Hptw.
  { unfold ptw. by rewrite length_fmap, length_indices, shape_size_single. }
  assert (length pbar = m) as Hpbar by (unfold pbar; by rewrite length_fmap).
  assert (length s2 = m) as Hs2
    by (unfold s2; rewrite length_zip_with; lia).
  assert (of_Z (Z.of_nat 1 - 1) * nbar = Fin 0)%fl as Hden.
  { unfold nbar, of_Z. rewrite fdiv_Fin by (by apply Qc_of_Z_nonzero).
    cbn [fmul]. f_equal.
    change (Z.of_nat 1 - 1)%Z with 0%Z. rewrite Z2Qc_inj_0. ring. }
  assert (Forall (λ s, fmul (Fin 0) s = NaN) s2) as Hnf.
  { unfold s2. rewrite Hden. apply Forall_forall. intros s Hs.
    apply elem_of_lookup_zip_with in Hs as (i & pt & pb & -> & _ & _).
    by apply fmul_zero_fdiv_zero. }
  (* hence every per-entry numerator and denominator term is nan *)
  match goal with
  | |- context [fdiv (ma_fsum (zip_with _ (data sfs) ?a) _)
                     (fadd _ (ma_fsum (zip_with _ (data sfs) ?d) _))] =>
      assert (a = replicate m NaN) as Ha;
      [| assert (d = replicate m NaN) as Hd ]
  end.
  - apply list_eq_same_length with m;
      [by rewrite length_replicate | rewrite length_zip_with; lia |].
    intros i x y Hi Hx Hy. apply lookup_replicate in Hy as [-> _].
    apply lookup_zip_with_Some in Hx as (s & pb & -> & Hs & _).
    eapply Forall_lookup in Hnf; [|exact Hs].
    unfold of_Z at 2. rewrite Z2Qc_inj_0, Hnf.
    by rewrite fsub_NaN_r, fmul_NaN_r, fsub_NaN_r, fmul_NaN_r.
  - apply list_eq_same_length with m;
      [by rewrite length_replicate | rewrite length_zip_with; lia |].
    intros i x y Hi Hx Hy. apply lookup_replicate in Hy as [-> _].
    apply lookup_zip_with_Some in Hx as (s & pb & -> & Hs & _).
    eapply Forall_lookup in Hnf; [|exact Hs].
    unfold of_Z. rewrite Z2Qc_inj_0, Hnf.
    by rewrite fsub_NaN_r, fmul_NaN_r.
  - rewrite Ha, Hd.
    assert (zip_with (λ x a, Fin x * a)%fl (data sfs) (replicate m NaN)
            = replicate m NaN) as ->.
    { rewrite zip_with_replicate_r by lia.
      rewrite <- Hdata. clear. induction (data sfs) as [|x l IH]; [done|].
      simpl. by f_equal. }
    unfold ma_fsum.
    destruct (compressed_replicate NaN m (mask sfs)) as [k ->]; [done..|].
    by rewrite fsum_NaN.
Qed.

(** ** randomly_resampled_2D and mask_corners at the edges *)

(** X20.  On a spectrum whose rank is not 2, [randomly_resampled_2D]
    raises [ValueError] when it unpacks the shape into [n1, n2], before
    anything else. *)
Theorem randomly_resampled_2D_rank_error
    (lncomb_impl : Z → Z → float) (np_exp : float → float) (sfs : SFS) :
  ndim sfs ≠ 2 →
  ∃ msg, randomly_resampled_2D lncomb_impl np_exp sfs = Raise (ValueError msg).
Proof.
  unfold ndim, randomly_resampled_2D. intros Hr.
  destruct (shape sfs) as [|s1 [|s2 [|s3 sh]]]; simpl in Hr; try lia;
    by eexists.
Qed.

(** X21.  [mask_corners] succeeds on every spectrum that has an entry, and
    raises [IndexError] on one that has none: [mask.flat[0]] is out of
    bounds. *)
Theorem mask_corners_nonempty (sfs : SFS) :
  (1 ≤ shape_size (shape sfs) →
     mask_corners sfs
     = Ret (masked_array sfs (corner_mask (shape_size (shape sfs)))))
  ∧ (shape_size (shape sfs) = 0 → mask_corners sfs = Raise IndexError).
Proof.
  split; [apply mask_corners_eq|].
  intros H0. unfold mask_corners, flat_set. rewrite H0. reflexivity.
Qed.

(** ** pi *)

Lemma zip_with_seq_imap {A B C} (f : A → B → C) (g : nat → B) (l : list A)
    (a : nat) :
  zip_with f l (g <$> seq a (length l)) = imap (λ i x, f x (g (a + i))) l.
Proof.
  revert a. induction l as [|x l IH]; intros a; [done|].
  csimpl. rewrite IH, Nat.add_0_r. f_equal.
  apply imap_ext. intros i y _. simpl. f_equal. f_equal. lia.
Qed.

Lemma shape0_single (sfs : SFS) (m : nat) :
  shape sfs = [m] → shape0 sfs = Z.of_nat m.
Proof. unfold shape0. by intros ->. Qed.

Lemma ndim_single (sfs : SFS) (m : nat) : shape sfs = [m] → ndim sfs = 1.
Proof. unfold ndim. by intros ->. Qed.

Lemma arange_0 (k : nat) : arange 0 (Z.of_nat k) = Z.of_nat <$> seq 0 k.
Proof.
  unfold arange. rewrite Z.sub_0_r. apply (seqZ_of_nat 0 k).
Qed.

Lemma pi_terms (sfs : SFS) (n : nat) :
  shape sfs = [n + 1] → 1 ≤ n → length (data sfs) = n + 1 →
  zip_with (λ s p_i, Fin s * p_i * (1 - p_i))%fl (data sfs)
    ((λ i, 1 * of_Z i / of_Z (shape0 sfs - 1))%fl
       <$> arange 0 (shape0 sfs - 1 + 1))
  = Fin <$> imap (λ i s, let p := Qc_of_nat i / Qc_of_Z (shape0 sfs - 1) in
                         s * p * (1 - p))%Qc (data sfs).
Proof.
  intros Hshape Hn Hlen. rewrite (shape0_single _ _ Hshape).
  replace (Z.of_nat (n + 1) - 1 + 1)%Z with (Z.of_nat (n + 1)) by lia.
  rewrite arange_0, <- list_fmap_compose, <- Hlen, zip_with_seq_imap.
  rewrite fmap_imap. apply imap_ext. intros i s _. unfold compose, of_Z.
  cbn [Nat.add fmul]. rewrite fdiv_Fin by (apply Qc_of_Z_nonzero; lia).
  cbn [fmul fsub fadd fopp]. f_equal. unfold Qc_of_nat, Qcminus, Qcdiv. ring.
Qed.

Lemma pi_eq (sfs : SFS) (n : nat) :
  shape sfs = [n + 1] → 1 ≤ n → length (data sfs) = n + 1 →
  pi sfs
  = k ← py_idiv (Z.of_nat n) (Z.of_nat n - 1);
    Ret (Fin (Qc_of_Z (k * 2) * pq_sum sfs)).
Proof.
  intros Hshape Hn Hlen. unfold pi.
  rewrite bool_decide_eq_false_2
    by (rewrite (ndim_single _ _ Hshape); auto).
  rewrite (pi_terms sfs n) by done.
  unfold ma_fsum. rewrite compressed_fmap, fsum_Fin.
  rewrite (shape0_single _ _ Hshape).
  replace (Z.of_nat (n + 1) - 1)%Z with (Z.of_nat n) by lia.
  destruct (py_idiv _ _) as [k|e]; [|done].
  cbn [mbind result_bind of_Z fmul]. unfold pq_sum.
  rewrite (shape0_single _ _ Hshape).
  by replace (Z.of_nat (n + 1) - 1)%Z with (Z.of_nat n) by lia.
Qed.

(** X22.  On a one-dimensional spectrum of length [n + 1] with an unmasked
    entry, [pi] returns [k · Σ_i sfs[i]·p_i·(1-p_i)] over the unmasked
    entries, where [k] is twice the integer quotient of [n] by [n - 1]: 4
    for [n = 2] and 2 for every [n >= 3]. *)
Theorem pi_value (sfs : SFS) (n : nat) :
  wf_sfs sfs → shape sfs = [n + 1] → 2 ≤ n → false ∈ mask sfs →
  pi sfs
  = Ret (Fin (Qc_of_Z (if bool_decide (n = 2) then 4 else 2) * pq_sum sfs)).
Proof.
  intros (_ & Hdata & _) Hshape Hn _.
  rewrite (pi_eq sfs n) by (try done; try lia; rewrite Hdata, Hshape; simpl; lia).
  case_bool_decide as H2.
  - subst n. reflexivity.
  - rewrite py_idiv_n_pred by lia. reflexivity.
Qed.

Lemma pi_single (sfs : SFS) (m : nat) :
  shape sfs = [m] →
  (m = 2 → pi sfs = Raise ZeroDivisionError)
  ∧ (m ≠ 2 → ∃ v, pi sfs = Ret v).
Proof.
  intros Hshape. unfold pi.
  rewrite bool_decide_eq_false_2
    by (rewrite (ndim_single _ _ Hshape); auto).
  rewrite (shape0_single _ _ Hshape). unfold py_idiv. split.
  - intros ->. reflexivity.
  - intros Hm. rewrite bool_decide_eq_false_2 by lia.
    cbn [mbind result_bind]. by eexists.
Qed.

(** X23.  On a one-dimensional spectrum [pi] raises [ZeroDivisionError]
    when the spectrum has exactly two entries ([n = 1]), and raises nothing
    otherwise. *)
Theorem pi_two_entries (sfs : SFS) (m : nat) :
  wf_sfs sfs → shape sfs = [m] →
  (m = 2 → pi sfs = Raise ZeroDivisionError)
  ∧ (m ≠ 2 → ∃ v, pi sfs = Ret v).
Proof. intros _. apply pi_single. Qed.

(** ** Tajima_D *)

Lemma Watterson_theta_single (sfs : SFS) (m : nat) :
  shape sfs = [m] → 1 ≤ m → ∃ v, Watterson_theta sfs = Ret v.
Proof.
  intros Hshape Hm. unfold Watterson_theta.
  rewrite bool_decide_eq_false_2
    by (rewrite (ndim_single _ _ Hshape); auto).
  rewrite mask_corners_eq by (rewrite Hshape, shape_size_single; lia).
  by eexists.
Qed.

Lemma is_zero_Qc_of_Z (z : Z) : is_zero (Qc_of_Z z) = bool_decide (z = 0%Z).
Proof.
  unfold is_zero. apply bool_decide_ext.
  rewrite <- Z2Qc_inj_0. apply Z2Qc_inj_iff.
Qed.

(** The divisors of [b1] and [b2], for an integer-valued [n]. *)
Lemma b1_divisor (z : Z) :
  (3 * (of_Z z - 1))%fl = Fin (Qc_of_Z (3 * (z - 1))).
Proof.
  unfold of_Z. cbn [fmul fsub fadd fopp]. f_equal.
  rewrite Z2Qc_inj_mul, Z2Qc_inj_sub, Z2Qc_inj_1. reflexivity.
Qed.

Lemma b2_divisor (z : Z) :
  (9 * of_Z z * (of_Z z - 1))%fl = Fin (Qc_of_Z (9 * z * (z - 1))).
Proof.
  unfold of_Z. cbn [fmul fsub fadd fopp]. f_equal.
  rewrite !Z2Qc_inj_mul, Z2Qc_inj_sub, Z2Qc_inj_1. reflexivity.
Qed.

Lemma py_fdiv_Fin (x : float) (z : Z) :
  py_fdiv x (Fin (Qc_of_Z z))
  = if bool_decide (z = 0%Z) then Raise ZeroDivisionError
    else Ret (fdiv x (Fin (Qc_of_Z z))).
Proof. unfold py_fdiv. by rewrite is_zero_Qc_of_Z. Qed.

(** X24.  On a one-dimensional spectrum [Tajima_D] raises
    [ZeroDivisionError] when the spectrum has at most two entries, and raises
    nothing when it has three or more, whatever the square root returns. *)
Theorem Tajima_D_short (np_sqrt : float → float) (sfs : SFS) (m : nat) :
  wf_sfs sfs → shape sfs = [m] →
  (m ≤ 2 → Tajima_D np_sqrt sfs = Raise ZeroDivisionError)
  ∧ (3 ≤ m → ∃ v, Tajima_D np_sqrt sfs = Ret v).
Proof.
  intros (Hsh & _ & _) Hshape.
  assert (1 ≤ m) as Hm.
  { rewrite Hshape in Hsh. by apply Forall_cons in Hsh as [? _]. }
  destruct (pi_single sfs m Hshape) as [Hpi2 Hpi].
  destruct (Watterson_theta_single sfs m Hshape Hm) as [theta Htheta].
  unfold Tajima_D.
  rewrite bool_decide_eq_false_2
    by (rewrite (ndim_single _ _ Hshape); auto).
  rewrite mask_corners_eq by (rewrite Hshape, shape_size_single; lia).
  cbn [mbind result_bind]. rewrite Htheta.
  rewrite (shape0_single _ _ Hshape), b1_divisor, b2_divisor, !py_fdiv_Fin.
  split; intros Hcase.
  - destruct (decide (m = 2)) as [->|H2].
    { by rewrite Hpi2. }
    destruct (Hpi H2) as [pihat ->]. cbn [mbind result_bind].
    assert (m = 1) as -> by lia. reflexivity.
  - destruct Hpi as [pihat ->]; [lia|]. cbn [mbind result_bind].
    eexists.
    rewrite (bool_decide_eq_false_2 (3 * (Z.of_nat m - 1 - 1) = 0)%Z) by lia.
    rewrite (bool_decide_eq_false_2
               (9 * (Z.of_nat m - 1) * (Z.of_nat m - 1 - 1) = 0)%Z) by nia.
    reflexivity.
Qed.

(** ** The statistics and the corners *)

Lemma qsum_compressed_insert_zero (t : list Qc) (m : list bool) (i : nat) :
  (∀ x, t !! i = Some x → x = 0%Qc) →
  qsum (compressed t (<[i := true]> m)) = qsum (compressed t m).
Proof.
  revert m i. induction t as [|x t IH]; intros [|b m] [|i] H; simpl; try done.
  - destruct b; [done|]. rewrite qsum_cons, (H x) by done. ring.
  - destruct b; [by apply IH|]. rewrite !qsum_cons. f_equal. by apply IH.
Qed.

Lemma mask_corners_masked_array (sfs : SFS) :
  1 ≤ shape_size (shape sfs) →
  mask_corners (masked_array sfs (corner_mask (shape_size (shape sfs))))
  = Ret (masked_array sfs (corner_mask (shape_size (shape sfs)))).
Proof.
  intros Hpos. rewrite mask_corners_eq by done.
  unfold masked_array. simpl. by rewrite zip_orb_idem.
Qed.

Lemma pq_sum_corners (sfs : SFS) (n : nat) :
  wf_sfs sfs → shape sfs = [n + 1] → 1 ≤ n →
  pq_sum (masked_array sfs (corner_mask (shape_size (shape sfs))))
  = pq_sum sfs.
Proof.
  intros (Hsh & Hdata & Hmask) Hshape Hn. unfold pq_sum.
  rewrite masked_array_corner_mask by done.
  cbn [data masked_array]. unfold shape0. cbn [shape masked_array].
  fold (shape0 sfs). rewrite (shape0_single _ _ Hshape).
  rewrite Hshape, shape_size_single.
  replace (Z.of_nat (n + 1) - 1)%Z with (Z.of_nat n) by lia.
  assert (Qc_of_Z (Z.of_nat n) ≠ 0%Qc) as Hnz
    by (apply Qc_of_Z_nonzero; lia).
  rewrite !qsum_compressed_insert_zero; [done| |].
  - intros x. rewrite list_lookup_imap.
    destruct (data sfs !! 0) as [s|]; [|done]. intros [= <-].
    rewrite Qc_of_nat_0. unfold Qcdiv. ring.
  - intros x. rewrite list_lookup_imap.
    destruct (data sfs !! (n + 1 - 1)) as [s|]; [|done]. intros [= <-].
    replace (n + 1 - 1) with n by lia. unfold Qc_of_nat, Qcdiv.
    rewrite Qcmult_inv_r by done. ring.
Qed.

(** X25.  The three statistics do not see the corners: on a
    one-dimensional spectrum with an unmasked inner entry, each of
    [Watterson_theta], [pi] and [Tajima_D] returns on [mask_corners(sfs)]
    what it returns on [sfs], although [pi] masks nothing itself. *)
Theorem statistics_ignore_corners (np_sqrt : float → float)
    (sfs out : SFS) (n : nat) :
  wf_sfs sfs → shape sfs = [n + 1] → 1 ≤ n →
  false ∈ from1 (upto_last (mask sfs)) →
  mask_corners sfs = Ret out →
  Watterson_theta out = Watterson_theta sfs
  ∧ pi out = pi sfs
  ∧ Tajima_D np_sqrt out = Tajima_D np_sqrt sfs.
Proof.
  intros Hwf Hshape Hn _ Hout.
  pose proof Hwf as (Hsh & Hdata & Hmask).
  assert (1 ≤ shape_size (shape sfs)) as Hpos
    by (rewrite Hshape, shape_size_single; lia).
  rewrite mask_corners_eq in Hout by done. injection Hout as <-.
  set (out := masked_array sfs (corner_mask (shape_size (shape sfs)))).
  assert (mask_corners out = Ret out) as Hidem
    by by apply mask_corners_masked_array.
  assert (mask_corners sfs = Ret out) as Hmc by by apply mask_corners_eq.
  assert (Watterson_theta out = Watterson_theta sfs) as Htheta.
  { unfold Watterson_theta. by rewrite Hidem, Hmc. }
  assert (pi out = pi sfs) as Hpi.
  { rewrite (pi_eq out n), (pi_eq sfs n); try done.
    - unfold out. by rewrite (pq_sum_corners sfs n).
    - rewrite Hdata, Hshape, shape_size_single. done.
    - change (data out) with (data sfs).
      rewrite Hdata, Hshape, shape_size_single. done. }
  split; [done|]. split; [done|].
  unfold Tajima_D. by rewrite Hidem, Hmc, Hpi, Htheta.
Qed.

(** ** The further properties on concrete inputs *)

Lemma sfs_from_phi_1D_total_witness :
  length phi_123 = length grid_3
  ∧ qsum (sfs_from_phi_1D 2 grid_3 phi_123) = trapz phi_123 grid_3.
Proof.
  split; [reflexivity|].
  apply (sfs_from_phi_1D_total 2 grid_3 phi_123). reflexivity.
Defined.

Lemma sfs_from_phi_1D_linear_witness :
  length phi_123 = length grid_3 ∧ length phi_312 = length grid_3
  ∧ sfs_from_phi_1D 2 grid_3
      (vadd (vscale (Qc_of_Z 2) phi_123) (vscale (Qc_of_Z 3) phi_312))
    = vadd (vscale (Qc_of_Z 2) (sfs_from_phi_1D 2 grid_3 phi_123))
           (vscale (Qc_of_Z 3) (sfs_from_phi_1D 2 grid_3 phi_312)).
Proof.
  split; [reflexivity|]. split; [reflexivity|].
  apply (sfs_from_phi_1D_linear 2 grid_3 phi_123 phi_312); reflexivity.
Defined.

Lemma sfs_from_phi_1D_nonneg_witness :
  Forall (λ s, 0 ≤ s)%Qc (sfs_from_phi_1D 2 grid_3 phi_123).
Proof.
  apply (sfs_from_phi_1D_nonneg 2 grid_3 phi_123).
  - reflexivity.
  - repeat constructor; vm_compute; discriminate.
  - repeat constructor; vm_compute; discriminate.
  - repeat constructor; vm_compute; discriminate.
Defined.

Lemma sfs_from_phi_1D_degenerate_grid_witness :
  length [Qc_of_Z 3] = length [frac 1 2]
  ∧ length [frac 1 2] ≤ 1
  ∧ sfs_from_phi_1D 2 [frac 1 2] [Qc_of_Z 3] = replicate 3 0%Qc.
Proof.
  split; [reflexivity|]. split; [simpl; lia|].
  apply (proj2 (sfs_from_phi_1D_degenerate_grid 2 [frac 1 2] [Qc_of_Z 3]
                  eq_refl)).
  simpl. lia.
Defined.

Lemma conformable_2D_3x3 : conformable_2D grid_3 grid_3 phi_3x3.
Proof. split; [reflexivity|]. repeat constructor. Defined.

Lemma conformable_3D_3x3x3 : conformable_3D grid_3 grid_3 grid_3 phi_3x3x3.
Proof.
  unfold conformable_3D. simpl. repeat split; try lia. repeat constructor.
Defined.

Lemma sfs_from_phi_2D_bins_witness :
  conformable_2D grid_3 grid_3 phi_3x3
  ∧ get2 (sfs_from_phi_2D 2 1 grid_3 grid_3 phi_3x3) 2 0
    = Some (bin_integral_2D 2 1 grid_3 grid_3 phi_3x3 2 0).
Proof.
  split; [exact conformable_2D_3x3|].
  apply (sfs_from_phi_2D_bins 2 1 grid_3 grid_3 phi_3x3 conformable_2D_3x3);
    lia.
Defined.

Lemma sfs_from_phi_2D_marginal_witness :
  conformable_2D grid_3 grid_3 phi_3x3
  ∧ qsum <$> sfs_from_phi_2D 2 1 grid_3 grid_3 phi_3x3
    = sfs_from_phi_1D 2 grid_3 ((λ line, trapz line grid_3) <$> phi_3x3).
Proof.
  split; [exact conformable_2D_3x3|].
  exact (sfs_from_phi_2D_marginal 2 1 grid_3 grid_3 phi_3x3
           conformable_2D_3x3).
Defined.

Lemma sfs_from_phi_2D_total_witness :
  conformable_2D grid_3 grid_3 phi_3x3
  ∧ qsum2 (sfs_from_phi_2D 2 1 grid_3 grid_3 phi_3x3)
    = trapz ((λ line, trapz line grid_3) <$> phi_3x3) grid_3.
Proof.
  split; [exact conformable_2D_3x3|].
  exact (sfs_from_phi_2D_total 2 1 grid_3 grid_3 phi_3x3 conformable_2D_3x3).
Defined.

Lemma sfs_from_phi_2D_separable_witness :
  length phi_123 = length grid_3 ∧ length phi_312 = length grid_3
  ∧ sfs_from_phi_2D 2 1 grid_3 grid_3 (outer phi_123 phi_312)
    = outer (sfs_from_phi_1D 2 grid_3 phi_123)
            (sfs_from_phi_1D 1 grid_3 phi_312).
Proof.
  split; [reflexivity|]. split; [reflexivity|].
  apply (sfs_from_phi_2D_separable 2 1 grid_3 grid_3 phi_123 phi_312);
    reflexivity.
Defined.

Lemma sfs_from_phi_3D_bins_witness :
  conformable_3D grid_3 grid_3 grid_3 phi_3x3x3
  ∧ get3 (sfs_from_phi_3D 1 2 1 grid_3 grid_3 grid_3 phi_3x3x3) 1 2 0
    = Some (bin_integral_3D 1 2 1 grid_3 grid_3 grid_3 phi_3x3x3 1 2 0).
Proof.
  split; [exact conformable_3D_3x3x3|].
  apply (sfs_from_phi_3D_bins 1 2 1 grid_3 grid_3 grid_3 phi_3x3x3
           conformable_3D_3x3x3); lia.
Defined.

Lemma sfs_from_phi_3D_marginal_witness :
  conformable_3D grid_3 grid_3 grid_3 phi_3x3x3
  ∧ (λ plane : list (list Qc), qsum <$> plane)
      <$> sfs_from_phi_3D 1 2 1 grid_3 grid_3 grid_3 phi_3x3x3
    = sfs_from_phi_2D 1 2 grid_3 grid_3
        ((λ plane : list (list Qc), (λ line, trapz line grid_3) <$> plane)
           <$> phi_3x3x3).
Proof.
  split; [exact conformable_3D_3x3x3|].
  exact (sfs_from_phi_3D_marginal 1 2 1 grid_3 grid_3 grid_3 phi_3x3x3
           conformable_3D_3x3x3).
Defined.

Lemma sfs_from_phi_3D_total_witness :
  conformable_3D grid_3 grid_3 grid_3 phi_3x3x3
  ∧ qsum3 (sfs_from_phi_3D 1 2 1 grid_3 grid_3 grid_3 phi_3x3x3)
    = trapz ((λ plane, trapz ((λ line, trapz line grid_3) <$> plane) grid_3)
               <$> phi_3x3x3) grid_3.
Proof.
  split; [exact conformable_3D_3x3x3|].
  exact (sfs_from_phi_3D_total 1 2 1 grid_3 grid_3 grid_3 phi_3x3x3
           conformable_3D_3x3x3).
Defined.

Lemma sfs_from_phi_3D_separable_witness :
  sfs_from_phi_3D 1 2 1 grid_3 grid_3 grid_3 (outer3 phi_123 phi_312 phi_123)
  = outer3 (sfs_from_phi_1D 1 grid_3 phi_123)
           (sfs_from_phi_1D 2 grid_3 phi_312)
           (sfs_from_phi_1D 1 grid_3 phi_123).
Proof.
  apply (sfs_from_phi_3D_separable 1 2 1 grid_3 grid_3 grid_3
           phi_123 phi_312 phi_123); reflexivity.
Defined.

Lemma wf_sfs_0110 : wf_sfs sfs_0110.
Proof. unfold wf_sfs. simpl. repeat split; repeat constructor. Defined.

Lemma wf_model_12 : wf_sfs model_12.
Proof. unfold wf_sfs. simpl. repeat split; repeat constructor. Defined.

Lemma wf_data_13 : wf_sfs data_13.
Proof. unfold wf_sfs. simpl. repeat split; repeat constructor. Defined.

Lemma joint_sum_model_12_13 : joint_sum_model model_12 data_13 ≠ 0%Qc.
Proof. intros H. apply (f_equal this) in H. vm_compute in H. discriminate H. Defined.

Lemma joint_sum_data_12_13 : joint_sum_data model_12 data_13 ≠ 0%Qc.
Proof. intros H. apply (f_equal this) in H. vm_compute in H. discriminate H. Defined.

Lemma optimal_sfs_scaling_reciprocal_witness :
  joint_sum_model model_12 data_13 ≠ 0%Qc
  ∧ joint_sum_data model_12 data_13 ≠ 0%Qc
  ∧ optimal_sfs_scaling data_13 model_12
    = (1 / optimal_sfs_scaling model_12 data_13)%fl.
Proof.
  split; [exact joint_sum_model_12_13|]. split; [exact joint_sum_data_12_13|].
  exact (optimal_sfs_scaling_reciprocal model_12 data_13 wf_model_12 wf_data_13
           eq_refl joint_sum_model_12_13 joint_sum_data_12_13).
Defined.

Lemma optimally_scaled_sfs_total_witness :
  joint_sum_model model_12 data_13 ≠ 0%Qc
  ∧ fsum (compressed (fdata (optimally_scaled_sfs model_12 data_13))
                     (joint_mask model_12 data_13))
    = Fin (joint_sum_data model_12 data_13).
Proof.
  split; [exact joint_sum_model_12_13|].
  exact (proj2 (proj2 (optimally_scaled_sfs_total model_12 data_13 wf_model_12
                         wf_data_13 eq_refl joint_sum_model_12_13))).
Defined.

Lemma optimally_scaled_sfs_scale_invariant_witness :
  joint_sum_model model_12 data_13 ≠ 0%Qc ∧ Qc_of_Z 2 ≠ 0%Qc
  ∧ unmasked (optimally_scaled_sfs (scaled (Qc_of_Z 2) model_12) data_13)
    = unmasked (optimally_scaled_sfs model_12 data_13).
Proof.
  assert (Qc_of_Z 2 ≠ 0%Qc) as Hk.
  { intros H. apply (f_equal this) in H. vm_compute in H. discriminate H. }
  split; [exact joint_sum_model_12_13|]. split; [exact Hk|].
  exact (proj2 (proj2 (optimally_scaled_sfs_scale_invariant (Qc_of_Z 2)
                         model_12 data_13 wf_model_12 wf_data_13 eq_refl
                         joint_sum_model_12_13 Hk))).
Defined.

Lemma optimally_scaled_sfs_idempotent_witness :
  let fitted :=
    scaled (joint_sum_data model_12 data_13 / joint_sum_model model_12 data_13)
           model_12 in
  Fin <$> data fitted = fdata (optimally_scaled_sfs model_12 data_13)
  ∧ optimal_sfs_scaling fitted data_13 = Fin 1.
Proof.
  intros fitted.
  assert (Fin <$> data fitted = fdata (optimally_scaled_sfs model_12 data_13))
    as Hfit.
  { rewrite optimally_scaled_sfs_Fin by exact joint_sum_model_12_13.
    reflexivity. }
  split; [exact Hfit|].
  exact (optimally_scaled_sfs_idempotent model_12 data_13 fitted wf_model_12
           wf_data_13 eq_refl joint_sum_model_12_13 joint_sum_data_12_13
           eq_refl eq_refl Hfit).
Defined.

Lemma Fst_no_exception_witness :
  1 ≤ ndim sfs_3x3_fixed ∧ ∃ v, Fst sfs_3x3_fixed = Ret v.
Proof.
  assert (1 ≤ ndim sfs_3x3_fixed) as H by (unfold ndim; simpl; lia).
  split; [exact H|]. exact (Fst_no_exception sfs_3x3_fixed H).
Defined.

Lemma Fst_single_population_witness :
  wf_sfs sfs_02310 ∧ shape sfs_02310 = [5] ∧ false ∈ mask sfs_02310
  ∧ Fst sfs_02310 = Ret NaN.
Proof.
  assert (false ∈ mask sfs_02310) as Hm by (simpl; constructor).
  split; [exact wf_sfs_02310|]. split; [reflexivity|]. split; [exact Hm|].
  exact (Fst_single_population sfs_02310 5 wf_sfs_02310 eq_refl Hm).
Defined.

Lemma randomly_resampled_2D_rank_error_witness :
  ndim sfs_02310 ≠ 2
  ∧ ∃ msg, randomly_resampled_2D (λ _ _, NaN) id sfs_02310
           = Raise (ValueError msg).
Proof.
  assert (ndim sfs_02310 ≠ 2) as H by (unfold ndim; simpl; lia).
  split; [exact H|].
  exact (randomly_resampled_2D_rank_error (λ _ _, NaN) id sfs_02310 H).
Defined.

Lemma mask_corners_nonempty_witness :
  mask_corners sfs_2x2
  = Ret (masked_array sfs_2x2 (corner_mask (shape_size (shape sfs_2x2))))
  ∧ mask_corners sfs_empty = Raise IndexError.
Proof.
  split.
  - apply (proj1 (mask_corners_nonempty sfs_2x2)). simpl. lia.
  - apply (proj2 (mask_corners_nonempty sfs_empty)). reflexivity.
Defined.

Lemma pi_value_witness :
  wf_sfs sfs_0110 ∧ shape sfs_0110 = [3 + 1] ∧ 2 ≤ 3 ∧ false ∈ mask sfs_0110
  ∧ pi sfs_0110 = Ret (Fin (Qc_of_Z 2 * pq_sum sfs_0110)).
Proof.
  assert (false ∈ mask sfs_0110) as Hm by (simpl; constructor).
  split; [exact wf_sfs_0110|]. split; [reflexivity|]. split; [lia|].
  split; [exact Hm|].
  apply (pi_value sfs_0110 3 wf_sfs_0110 eq_refl); [lia | exact Hm].
Defined.

Lemma pi_two_entries_witness :
  wf_sfs model_12 ∧ shape model_12 = [2]
  ∧ pi model_12 = Raise ZeroDivisionError
  ∧ ∃ v, pi sfs_0110 = Ret v.
Proof.
  split; [exact wf_model_12|]. split; [reflexivity|]. split.
  - apply (proj1 (pi_two_entries model_12 2 wf_model_12 eq_refl)).
    reflexivity.
  - apply (proj2 (pi_two_entries sfs_0110 4 wf_sfs_0110 eq_refl)). lia.
Defined.

Lemma Tajima_D_short_witness :
  wf_sfs model_12 ∧ shape model_12 = [2]
  ∧ Tajima_D id model_12 = Raise ZeroDivisionError
  ∧ ∃ v, Tajima_D id sfs_0110 = Ret v.
Proof.
  split; [exact wf_model_12|]. split; [reflexivity|]. split.
  - apply (proj1 (Tajima_D_short id model_12 2 wf_model_12 eq_refl)). lia.
  - apply (proj2 (Tajima_D_short id sfs_0110 4 wf_sfs_0110 eq_refl)). lia.
Defined.

Lemma statistics_ignore_corners_witness :
  let out := masked_array sfs_02310 (corner_mask 5) in
  mask_corners sfs_02310 = Ret out
  ∧ Watterson_theta out = Watterson_theta sfs_02310
  ∧ pi out = pi sfs_02310
  ∧ Tajima_D id out = Tajima_D id sfs_02310.
Proof.
  intros out.
  assert (mask_corners sfs_02310 = Ret out) as Hout by reflexivity.
  split; [exact Hout|].
  apply (statistics_ignore_corners id sfs_02310 out 4 wf_sfs_02310
           eq_refl); [lia | simpl; constructor | exact Hout].
Defined.
